(** * RDP accounting of the sampled Gaussian mechanism and of randomized
      response: a shallow embedding of [compute_rdp.py]

    The Python module computes with floats.  The embedding keeps the shape of
    the code and idealises the numbers: a finite float is a real number (no
    rounding), and the three special floats are constructors of their own.
    The range of the doubles is kept where Python raises on leaving it: in
    the float power and in [math.expm1].  Python exceptions are values of an
    error monad, and the one unbounded loop of the module runs on fuel. *)

From Stdlib Require Import Reals Lra Lia ZArith List Bool.
Import ListNotations.

Local Open Scope R_scope.

(** ** Exceptions and outcomes *)

(** The exceptions the module can raise. *)
Inductive exn : Type :=
| ValueError          (* math domain error, or the explicit raise of [_log_sub] *)
| ZeroDivisionError   (* float division by zero, 0.0 to a negative power *)
| OverflowError       (* math range error *)
| TypeError.          (* float() applied to a complex number *)

(** What running a piece of the module yields: a value, an exception, or
    nothing yet because the fuel of the loop ran out. *)
Inductive outcome (A : Type) : Type :=
| Ret (a : A)
| Raise (e : exn)
| OutOfFuel.

Arguments Ret {A} a.
Arguments Raise {A} e.
Arguments OutOfFuel {A}.

Definition bind {A B : Type} (c : outcome A) (k : A -> outcome B) : outcome B :=
  match c with
  | Ret a => k a
  | Raise e => Raise e
  | OutOfFuel => OutOfFuel
  end.

Notation "x <- c ;; k" := (bind c (fun x => k))
  (at level 61, c at next level, right associativity).
Notation "' pat <- c ;; k" := (bind c (fun x => match x with pat => k end))
  (at level 61, pat pattern, c at next level, right associativity).

(** [try: c except OverflowError: h] *)
Definition except_overflow {A : Type} (c h : outcome A) : outcome A :=
  match c with
  | Raise OverflowError => h
  | o => o
  end.

(** A list comprehension over a fallible function: left to right, the first
    exception wins. *)
Fixpoint comprehension {A B : Type} (f : A -> outcome B) (l : list A)
  : outcome (list B) :=
  match l with
  | [] => Ret []
  | x :: l' => y <- f x ;; ys <- comprehension f l' ;; Ret (y :: ys)
  end.

(** ** Floats *)

(** A Python float: a real number, one of the two infinities, or NaN. *)
Inductive pyfloat : Type :=
| NInf
| Fin (r : R)
| PInf
| NaN.

Definition Rltb (a b : R) : bool := if Rlt_dec a b then true else false.
Definition Reqb (a b : R) : bool := if Req_dec_T a b then true else false.

(** [x < y]; every comparison with NaN is false. *)
Definition flt (x y : pyfloat) : bool :=
  match x, y with
  | NaN, _ | _, NaN => false
  | NInf, NInf => false
  | NInf, _ => true
  | Fin a, Fin b => Rltb a b
  | Fin _, PInf => true
  | Fin _, NInf => false
  | PInf, _ => false
  end.

(** [x == y] *)
Definition feq (x y : pyfloat) : bool :=
  match x, y with
  | NInf, NInf => true
  | PInf, PInf => true
  | Fin a, Fin b => Reqb a b
  | _, _ => false
  end.

(** The builtins [min(x, y)] and [max(x, y)]: the second argument replaces
    the first only when it compares strictly below (above) it. *)
Definition py_min (x y : pyfloat) : pyfloat := if flt y x then y else x.
Definition py_max (x y : pyfloat) : pyfloat := if flt x y then y else x.

Definition fneg (x : pyfloat) : pyfloat :=
  match x with
  | NInf => PInf
  | Fin a => Fin (- a)
  | PInf => NInf
  | NaN => NaN
  end.

Definition fadd (x y : pyfloat) : pyfloat :=
  match x, y with
  | NaN, _ | _, NaN => NaN
  | Fin a, Fin b => Fin (a + b)
  | PInf, NInf | NInf, PInf => NaN
  | PInf, _ | _, PInf => PInf
  | NInf, _ | _, NInf => NInf
  end.

Definition fsub (x y : pyfloat) : pyfloat := fadd x (fneg y).

(** An infinity times a finite factor: NaN at zero, otherwise the sign rule. *)
Definition scale_inf (inf : pyfloat) (b : R) : pyfloat :=
  if Reqb b 0 then NaN else if Rltb 0 b then inf else fneg inf.

Definition fmul (x y : pyfloat) : pyfloat :=
  match x, y with
  | NaN, _ | _, NaN => NaN
  | Fin a, Fin b => Fin (a * b)
  | Fin a, inf => scale_inf inf a
  | inf, Fin b => scale_inf inf b
  | PInf, PInf | NInf, NInf => PInf
  | PInf, NInf | NInf, PInf => NInf
  end.

(** Python's float division: a zero divisor raises, whatever the dividend. *)
Definition fdiv (x y : pyfloat) : outcome pyfloat :=
  match x, y with
  | _, Fin b =>
      if Reqb b 0 then Raise ZeroDivisionError
      else match x with
           | Fin a => Ret (Fin (a / b))
           | NaN => Ret NaN
           | inf => Ret (scale_inf inf b)
           end
  | NaN, _ | _, NaN => Ret NaN
  | Fin _, _ => Ret (Fin 0)
  | _, _ => Ret NaN
  end.

(** A log-space value: a real or minus infinity. *)
Definition log_value (x : pyfloat) : Prop := x = NInf \/ exists r, x = Fin r.

(** ** The [math] module *)

(** [math.log]: a domain error at and below zero. *)
Definition math_log (x : pyfloat) : outcome pyfloat :=
  match x with
  | Fin r => if Rltb 0 r then Ret (Fin (ln r)) else Raise ValueError
  | PInf => Ret PInf
  | NInf => Raise ValueError
  | NaN => Ret NaN
  end.

(** [math.log1p]: a domain error at and below minus one. *)
Definition math_log1p (x : pyfloat) : outcome pyfloat :=
  match x with
  | Fin r => if Rltb (-1) r then Ret (Fin (ln (1 + r))) else Raise ValueError
  | PInf => Ret PInf
  | NInf => Raise ValueError
  | NaN => Ret NaN
  end.

(** [math.exp].  The module only applies it to [min - max], which is never
    positive, so its range error cannot occur and is not modelled. *)
Definition math_exp (x : pyfloat) : pyfloat :=
  match x with
  | Fin r => Fin (exp r)
  | PInf => PInf
  | NInf => Fin 0
  | NaN => NaN
  end.

(** [math.log] and [/] on finite operands. *)
Definition rlog (x : R) : outcome R :=
  if Rltb 0 x then Ret (ln x) else Raise ValueError.

Definition rdiv (x y : R) : outcome R :=
  if Reqb y 0 then Raise ZeroDivisionError else Ret (x / y).

(** The largest finite double. *)
Definition DBL_MAX : R := (2 ^ 53 - 1) * 2 ^ 971.

(** [float.__pow__] at a finite base, after CPython's [float_pow]: the
    special exponents first, then the zero base, then the power itself,
    which raises OverflowError when it leaves the range of the doubles
    (an underflow gives zero and raises nothing).  A negative base with a
    fractional exponent gives a complex number, which the surrounding
    [float(...)] refuses. *)
Definition is_integer (r : R) : bool := Reqb (IZR (Int_part r)) r.

Definition float_pow (v : R) (w : pyfloat) : outcome pyfloat :=
  match w with
  | NaN => Ret (if Reqb v 1 then Fin 1 else NaN)
  | PInf =>
      if Reqb (Rabs v) 1 then Ret (Fin 1)
      else if Rltb 1 (Rabs v) then Ret PInf else Ret (Fin 0)
  | NInf =>
      if Reqb (Rabs v) 1 then Ret (Fin 1)
      else if Rltb 1 (Rabs v) then Ret (Fin 0) else Ret PInf
  | Fin e =>
      if Reqb e 0 then Ret (Fin 1)
      else if Reqb v 0 then
        if Rltb e 0 then Raise ZeroDivisionError else Ret (Fin 0)
      else if Rltb v 0 then
        if Rltb DBL_MAX (Rpower (- v) e) then Raise OverflowError
        else if is_integer e then
          Ret (Fin (if Z.even (Int_part e) then Rpower (- v) e
                    else - Rpower (- v) e))
        else Raise TypeError
      else
        if Rltb DBL_MAX (Rpower v e) then Raise OverflowError
        else Ret (Fin (Rpower v e))
  end.

(** ** External numerics (SciPy) *)

(** [scipy.special.binom(n, k)] at a natural [k]: the generalised binomial
    coefficient [n (n-1) ... (n-k+1) / k!].  The value is exact: that SciPy
    returns infinity once the coefficient leaves the range of the doubles
    (at integer orders from about 1030 on) is not modelled, and no theorem
    below rests on the size of the coefficient, only on its sign. *)
Fixpoint binom (n : R) (k : nat) : R :=
  match k with
  | O => 1
  | S k' => binom n k' * (n - INR k') / INR k
  end.

(** ** Orders *)

(** An order is a real number or positive infinity. *)
Inductive order : Type :=
| Finite (a : R)
| Infinite.

Definition order_val (alpha : order) : pyfloat :=
  match alpha with
  | Finite a => Fin a
  | Infinite => PInf
  end.

(** [orders] is a scalar or a sequence, and the result has its shape. *)
Inductive shape (A : Type) : Type :=
| Scalar (a : A)
| Sequence (l : list A).

Arguments Scalar {A} a.
Arguments Sequence {A} l.

Definition shape_map {A B : Type} (f : A -> B) (s : shape A) : shape B :=
  match s with
  | Scalar a => Scalar (f a)
  | Sequence l => Sequence (map f l)
  end.

(** [f(orders)] if scalar, [np.array([f(order) for order in orders])]
    otherwise. *)
Definition per_order {A B : Type} (f : A -> outcome B) (orders : shape A)
  : outcome (shape B) :=
  match orders with
  | Scalar o => r <- f o ;; Ret (Scalar r)
  | Sequence l => rs <- comprehension f l ;; Ret (Sequence rs)
  end.

(** A property of every order of a scalar or a sequence. *)
Definition shape_all {A : Type} (P : A -> Prop) (s : shape A) : Prop :=
  match s with
  | Scalar a => P a
  | Sequence l => forall a, In a l -> P a
  end.

(** [n] times an entry point's result, per order. *)
Definition times (n : R) (o : outcome (shape pyfloat))
  : outcome (shape pyfloat) :=
  rdp <- o ;; Ret (shape_map (fmul (Fin n)) rdp).

(** The closed form of the randomized-response RDP at a finite order, as
    the specification writes it:
    [log(p^a (1-p)^(1-a) + (1-p)^a p^(1-a)) / (a - 1)]. *)
Definition rdp_rr (p a : R) : R :=
  ln (Rpower p a * Rpower (1 - p) (1 - a)
      + Rpower (1 - p) a * Rpower p (1 - a)) / (a - 1).

Section RDP.

(** [scipy.special.log_ndtr]: the logarithm of the standard normal
    distribution function; finite at every real. *)
Variable log_ndtr : R -> R.

(** Whether [math.expm1] raises its range error at a finite argument; this
    depends on the float format only. *)
Variable expm1_overflows : R -> bool.

Definition math_expm1 (x : pyfloat) : outcome pyfloat :=
  match x with
  | Fin r => if expm1_overflows r then Raise OverflowError
             else Ret (Fin (exp r - 1))
  | PInf => Ret PInf
  | NInf => Ret (Fin (-1))
  | NaN => Ret NaN
  end.

(** ** Log-space arithmetic *)

Definition _log_add (logx logy : pyfloat) : outcome pyfloat :=
  let a := py_min logx logy in
  let b := py_max logx logy in
  if feq a NInf then Ret b
  else
    l <- math_log1p (math_exp (fsub a b)) ;;
    Ret (fadd l b).

Definition _log_sub (logx logy : pyfloat) : outcome pyfloat :=
  if flt logx logy then Raise ValueError
  else if feq logy NInf then Ret logx
  else if feq logx logy then Ret NInf
  else
    except_overflow
      (e <- math_expm1 (fsub logx logy) ;;
       l <- math_log e ;;
       Ret (fadd l logy))
      (Ret logx).

Definition _log_erfc (x : R) : R :=
  ln 2 + log_ndtr (- x * Rpower 2 (1 / 2)).

(** [int(x)]: truncation towards zero. *)
Definition py_int (r : R) : Z :=
  if Rltb r 0 then (- Int_part (- r))%Z else Int_part r.

(** ** The Gaussian mechanism at an integer order *)

(** One [log_b] of the loop; the four operands are evaluated left to
    right. *)
Definition int_alpha_log_b (q sigma : R) (alpha : Z) (i : nat) : outcome R :=
  l_binom <- rlog (binom (IZR alpha) i) ;;
  l_q <- rlog q ;;
  l_1q <- rlog (1 - q) ;;
  d <- rdiv (INR i * INR i - INR i) (2 * sigma ^ 2) ;;
  Ret (l_binom + INR i * l_q + (IZR alpha - INR i) * l_1q + d).

(** The body of [for i in range(alpha + 1)], over the remaining indices. *)
Fixpoint int_alpha_loop (q sigma : R) (alpha : Z) (range : list nat)
    (rdp : pyfloat) : outcome pyfloat :=
  match range with
  | [] => Ret rdp
  | i :: range' =>
      log_b <- int_alpha_log_b q sigma alpha i ;;
      let a := py_min rdp (Fin log_b) in
      let b := py_max rdp (Fin log_b) in
      rdp' <- (if feq a NInf then Ret b
               else l <- math_log (fadd (math_exp (fsub a b)) (Fin 1)) ;;
                    Ret (fadd l b)) ;;
      int_alpha_loop q sigma alpha range' rdp'
  end.

Definition _compute_log_a_for_int_alpha (q sigma : R) (alpha : Z)
  : outcome pyfloat :=
  rdp <- int_alpha_loop q sigma alpha (seq 0 (Z.to_nat (alpha + 1))) NInf ;;
  fdiv rdp (Fin (IZR (alpha - 1))).

(** ** The Gaussian mechanism at a fractional order *)

(** The part of the loop body before the accumulation: [coef] and the two
    series terms [log_s0], [log_s1] at index [i]. *)
Definition frac_alpha_terms (q sigma alpha z0 : R) (i : nat)
  : outcome (R * R * R) :=
  let coef := binom alpha i in
  log_coef <- rlog (Rabs coef) ;;
  let j := alpha - INR i in
  l_q <- rlog q ;;
  l_1q <- rlog (1 - q) ;;
  let log_t0 := log_coef + INR i * l_q + j * l_1q in
  l_q' <- rlog q ;;
  l_1q' <- rlog (1 - q) ;;
  let log_t1 := log_coef + j * l_q' + INR i * l_1q' in
  l_half <- rlog (1 / 2) ;;
  x0 <- rdiv (INR i - z0) (sqrt 2 * sigma) ;;
  let log_e0 := l_half + _log_erfc x0 in
  l_half' <- rlog (1 / 2) ;;
  x1 <- rdiv (z0 - j) (sqrt 2 * sigma) ;;
  let log_e1 := l_half' + _log_erfc x1 in
  d0 <- rdiv (INR i * INR i - INR i) (2 * sigma ^ 2) ;;
  let log_s0 := log_t0 + d0 + log_e0 in
  d1 <- rdiv (j * j - j) (2 * sigma ^ 2) ;;
  let log_s1 := log_t1 + d1 + log_e1 in
  Ret (coef, log_s0, log_s1).

(** The [while True] loop: accumulate the terms at [i], then test them. *)
Fixpoint frac_alpha_loop (fuel : nat) (q sigma alpha z0 : R) (i : nat)
    (log_a0 log_a1 : pyfloat) : outcome (pyfloat * pyfloat) :=
  match fuel with
  | O => OutOfFuel
  | S fuel' =>
      '(coef, log_s0, log_s1) <- frac_alpha_terms q sigma alpha z0 i ;;
      '(log_a0', log_a1') <-
         (if Rltb 0 coef then
            a0 <- _log_add log_a0 (Fin log_s0) ;;
            a1 <- _log_add log_a1 (Fin log_s1) ;;
            Ret (a0, a1)
          else
            a0 <- _log_sub log_a0 (Fin log_s0) ;;
            a1 <- _log_sub log_a1 (Fin log_s1) ;;
            Ret (a0, a1)) ;;
      if flt (py_max (Fin log_s0) (Fin log_s1)) (Fin (-30))
      then Ret (log_a0', log_a1')
      else frac_alpha_loop fuel' q sigma alpha z0 (S i) log_a0' log_a1'
  end.

Definition _compute_log_a_for_frac_alpha (fuel : nat) (q sigma alpha : R)
  : outcome pyfloat :=
  inv_q <- rdiv 1 q ;;
  l <- rlog (inv_q - 1) ;;
  let z0 := sigma ^ 2 * l + 1 / 2 in
  '(log_a0, log_a1) <- frac_alpha_loop fuel q sigma alpha z0 0 NInf NInf ;;
  s <- _log_add log_a0 log_a1 ;;
  fdiv s (Fin (alpha - 1)).

(** ** The Gaussian mechanism at one order *)

Definition _compute_rdp (fuel : nat) (q sigma : R) (alpha : order)
  : outcome pyfloat :=
  if Reqb q 0 then Ret (Fin 0)
  else if Reqb sigma 0 then Ret PInf
  else if Reqb q 1 then fdiv (order_val alpha) (Fin (2 * sigma ^ 2))
  else
    match alpha with
    | Infinite => Ret PInf
    | Finite a =>
        if is_integer a
        then _compute_log_a_for_int_alpha q sigma (py_int a)
        else _compute_log_a_for_frac_alpha fuel q sigma a
    end.

(** ** The two entry points *)

Definition compute_rdp (fuel : nat) (q noise_multiplier : R) (steps : Z)
    (orders : shape order) : outcome (shape pyfloat) :=
  rdp <- per_order (_compute_rdp fuel q noise_multiplier) orders ;;
  Ret (shape_map (fun r => fmul r (Fin (IZR steps))) rdp).

(** ** Randomized response *)

Definition _compute_rdp_randomized_response (p : R) (alpha : order)
  : outcome pyfloat :=
  p_a <- float_pow p (order_val alpha) ;;
  p'_1a <- float_pow (1 - p) (fsub (Fin 1) (order_val alpha)) ;;
  let item1 := fmul p_a p'_1a in
  p'_a <- float_pow (1 - p) (order_val alpha) ;;
  p_1a <- float_pow p (fsub (Fin 1) (order_val alpha)) ;;
  let item2 := fmul p'_a p_1a in
  l <- math_log (fadd item1 item2) ;;
  fdiv l (fsub (order_val alpha) (Fin 1)).

Definition compute_rdp_randomized_response (p : R) (steps : Z)
    (orders : shape order) (q : R) : outcome (shape pyfloat) :=
  rdp <- per_order (_compute_rdp_randomized_response p) orders ;;
  Ret (shape_map (fun r => fmul (fmul (Fin q) r) (Fin (IZR steps))) rdp).

(** ** The fractional-order series, as the specification words it *)

(** The two series terms at index [i], for the crossover point [z0]. *)
Definition series_log_s0 (q sigma alpha z0 : R) (i : nat) : R :=
  let j := alpha - INR i in
  let log_t0 := ln (Rabs (binom alpha i)) + INR i * ln q + j * ln (1 - q) in
  let log_e0 := ln (1 / 2) + _log_erfc ((INR i - z0) / (sqrt 2 * sigma)) in
  log_t0 + (INR i * INR i - INR i) / (2 * sigma ^ 2) + log_e0.

Definition series_log_s1 (q sigma alpha z0 : R) (i : nat) : R :=
  let j := alpha - INR i in
  let log_t1 := ln (Rabs (binom alpha i)) + j * ln q + INR i * ln (1 - q) in
  let log_e1 := ln (1 / 2) + _log_erfc ((z0 - j) / (sqrt 2 * sigma)) in
  log_t1 + (j * j - j) / (2 * sigma ^ 2) + log_e1.

(** Both terms at index [i] are below the threshold. *)
Definition negligible (q sigma alpha z0 : R) (i : nat) : Prop :=
  series_log_s0 q sigma alpha z0 i < -30
  /\ series_log_s1 q sigma alpha z0 i < -30.

(** One update of the two running sums: [log_add] at a positive
    coefficient, [log_sub] at a negative one. *)
Definition accumulate (coef log_s0 log_s1 : R) (acc : pyfloat * pyfloat)
  : outcome (pyfloat * pyfloat) :=
  if Rltb 0 coef then
    a0 <- _log_add (fst acc) (Fin log_s0) ;;
    a1 <- _log_add (snd acc) (Fin log_s1) ;;
    Ret (a0, a1)
  else if Rltb coef 0 then
    a0 <- _log_sub (fst acc) (Fin log_s0) ;;
    a1 <- _log_sub (snd acc) (Fin log_s1) ;;
    Ret (a0, a1)
  else Raise ValueError.

(** The running sums after the terms [i, i+1, ..., i+k], in this order. *)
Fixpoint accumulate_from (q sigma alpha z0 : R) (i k : nat)
    (acc : pyfloat * pyfloat) : outcome (pyfloat * pyfloat) :=
  acc' <- accumulate (binom alpha i) (series_log_s0 q sigma alpha z0 i)
            (series_log_s1 q sigma alpha z0 i) acc ;;
  match k with
  | O => Ret acc'
  | S k' => accumulate_from q sigma alpha z0 (S i) k' acc'
  end.

(** The crossover point. *)
Definition crossover (q sigma : R) : R := sigma ^ 2 * ln (1 / q - 1) + 1 / 2.

End RDP.

(** The result of an entry point against its orders, for the per-order
    computation [f] and the final scaling [g]. *)
Definition order_by_order {A : Type} (f : A -> outcome pyfloat)
    (g : pyfloat -> pyfloat) (orders : shape A) (r : shape pyfloat) : Prop :=
  match orders, r with
  | Scalar o, Scalar v => exists x, f o = Ret x /\ v = g x
  | Sequence l, Sequence vs =>
      Forall2 (fun o v => exists x, f o = Ret x /\ v = g x) l vs
  | _, _ => False
  end.

(** * Properties *)

(** ** Deciding comparisons of reals *)

Lemma Rltb_true (a b : R) : a < b -> Rltb a b = true.
Proof. intros H; unfold Rltb; destruct (Rlt_dec a b); [reflexivity | contradiction]. Qed.

Lemma Rltb_false (a b : R) : b <= a -> Rltb a b = false.
Proof. intros H; unfold Rltb; destruct (Rlt_dec a b); [lra | reflexivity]. Qed.

Lemma Reqb_true (a b : R) : a = b -> Reqb a b = true.
Proof. intros H; unfold Reqb; destruct (Req_dec_T a b); [reflexivity | contradiction]. Qed.

Lemma Reqb_false (a b : R) : a <> b -> Reqb a b = false.
Proof. intros H; unfold Reqb; destruct (Req_dec_T a b); [contradiction | reflexivity]. Qed.

Lemma Rltb_spec (a b : R) : Rltb a b = true <-> a < b.
Proof. unfold Rltb; destruct (Rlt_dec a b); split; intros; auto; discriminate. Qed.

Lemma Reqb_spec (a b : R) : Reqb a b = true <-> a = b.
Proof. unfold Reqb; destruct (Req_dec_T a b); split; intros; auto; discriminate. Qed.

(** Case analysis on every comparison of reals in the goal. *)
Ltac decide_reals :=
  unfold Rltb, Reqb in *;
  repeat match goal with
         | |- context [Rlt_dec ?a ?b] => destruct (Rlt_dec a b)
         | |- context [Req_dec_T ?a ?b] => destruct (Req_dec_T a b)
         | H : context [Rlt_dec ?a ?b] |- _ => destruct (Rlt_dec a b)
         | H : context [Req_dec_T ?a ?b] |- _ => destruct (Req_dec_T a b)
         end.

(** ** Logarithms of sums and differences *)

Lemma ln_exp_sum (a b : R) :
  ln (1 + exp (a - b)) + b = ln (exp a + exp b).
Proof.
  rewrite <- (ln_exp b) at 2.
  rewrite <- ln_mult.
  - f_equal. rewrite Rmult_plus_distr_r, <- exp_plus.
    replace (a - b + b) with a by ring. ring.
  - pose proof (exp_pos (a - b)). lra.
  - apply exp_pos.
Qed.

Lemma ln_exp_diff (a b : R) :
  b < a -> ln (exp (a - b) - 1) + b = ln (exp a - exp b).
Proof.
  intros Hab.
  assert (H1 : 1 < exp (a - b)).
  { rewrite <- exp_0. apply exp_increasing. lra. }
  rewrite <- (ln_exp b) at 2.
  rewrite <- ln_mult.
  - f_equal. unfold Rminus. rewrite Rmult_plus_distr_r, <- exp_plus.
    replace (a + - b + b) with a by ring. ring.
  - lra.
  - apply exp_pos.
Qed.

Lemma Rmin_Rmax_sum (a b : R) :
  ln (1 + exp (Rmin a b - Rmax a b)) + Rmax a b = ln (exp a + exp b).
Proof.
  unfold Rmin, Rmax. destruct (Rle_dec a b).
  - apply ln_exp_sum.
  - rewrite ln_exp_sum. f_equal. ring.
Qed.

Section LogSpace.

Variable expm1_overflows : R -> bool.

Lemma log1p_exp (d : R) :
  math_log1p (math_exp (Fin d)) = Ret (Fin (ln (1 + exp d))).
Proof.
  simpl. rewrite Rltb_true; [reflexivity |].
  pose proof (exp_pos d). lra.
Qed.

Lemma log_add_finite (a b : R) :
  _log_add (Fin a) (Fin b)
  = Ret (Fin (ln (1 + exp (Rmin a b - Rmax a b)) + Rmax a b)).
Proof.
  unfold _log_add, py_min, py_max, Rmin, Rmax, flt.
  destruct (Rle_dec a b) as [Hle | Hgt].
  - rewrite (Rltb_false b a) by lra.
    destruct (Rlt_dec a b) as [Hlt | Hge].
    + rewrite (Rltb_true a b) by lra. cbn [feq fsub fneg fadd].
      change (a + - b) with (a - b). rewrite log1p_exp. reflexivity.
    + rewrite (Rltb_false a b) by lra. cbn [feq fsub fneg fadd].
      change (a + - a) with (a - a). rewrite log1p_exp.
      replace b with a by lra. reflexivity.
  - rewrite (Rltb_true b a) by lra. rewrite (Rltb_false a b) by lra.
    cbn [feq fsub fneg fadd].
    change (b + - a) with (b - a). rewrite log1p_exp. reflexivity.
Qed.

(** C7: [log_add] is commutative and has minus infinity as its identity on
    log-space values (reals and minus infinity; also plus infinity), and at
    two reals it returns [log1p(exp(a - b)) + b] for [a] the smaller and [b]
    the larger one, which is [log(exp(logx) + exp(logy))]. *)
Theorem log_add_commutative_identity (logx logy : pyfloat) :
  logx <> NaN -> logy <> NaN ->
  _log_add logx logy = _log_add logy logx
  /\ _log_add logx NInf = Ret logx
  /\ forall a b : R, logx = Fin a -> logy = Fin b ->
       _log_add logx logy
       = Ret (Fin (ln (1 + exp (Rmin a b - Rmax a b)) + Rmax a b))
       /\ ln (1 + exp (Rmin a b - Rmax a b)) + Rmax a b
          = ln (exp a + exp b).
Proof.
  intros Hx Hy. split; [| split].
  - destruct logx as [| a | |], logy as [| b | |]; try congruence;
      try reflexivity.
    rewrite !log_add_finite. rewrite (Rmin_comm b a), (Rmax_comm b a).
    reflexivity.
  - destruct logx; try congruence; reflexivity.
  - intros a b -> ->. split; [apply log_add_finite | apply Rmin_Rmax_sum].
Qed.

Lemma log_sub_finite (a b : R) :
  b < a ->
  _log_sub expm1_overflows (Fin a) (Fin b)
  = if expm1_overflows (a - b) then Ret (Fin a)
    else Ret (Fin (ln (exp (a - b) - 1) + b)).
Proof.
  intros Hab. unfold _log_sub, flt, feq.
  rewrite (Rltb_false a b) by lra. rewrite (Reqb_false a b) by lra.
  cbn [fsub fneg fadd math_expm1]. change (a + - b) with (a - b).
  destruct (expm1_overflows (a - b)); [reflexivity |].
  cbn [bind math_log except_overflow].
  assert (H1 : exp 0 < exp (a - b)) by (apply exp_increasing; lra).
  rewrite exp_0 in H1.
  rewrite Rltb_true by lra. reflexivity.
Qed.

(** C6: [log_sub] raises ValueError exactly when [logx < logy]; it returns
    [logx] when [logy] is minus infinity and minus infinity when
    [logx == logy]; in every other case it returns
    [log(expm1(logx - logy)) + logy], or [logx] when that expression
    overflows.  At two reals the value is [log(exp(logx) - exp(logy))]. *)
Theorem log_sub_cases (logx logy : pyfloat) :
  (_log_sub expm1_overflows logx logy = Raise ValueError
   <-> flt logx logy = true)
  /\ (logy = NInf -> _log_sub expm1_overflows logx logy = Ret logx)
  /\ (feq logx logy = true ->
      _log_sub expm1_overflows logx logy = Ret NInf)
  /\ (flt logx logy = false -> feq logy NInf = false ->
      feq logx logy = false ->
      _log_sub expm1_overflows logx logy
      = except_overflow
          (e <- math_expm1 expm1_overflows (fsub logx logy) ;;
           l <- math_log e ;;
           Ret (fadd l logy))
          (Ret logx))
  /\ (forall a b : R, logx = Fin a -> logy = Fin b -> b < a ->
      _log_sub expm1_overflows logx logy
      = (if expm1_overflows (a - b) then Ret (Fin a)
         else Ret (Fin (ln (exp (a - b) - 1) + b)))
      /\ ln (exp (a - b) - 1) + b = ln (exp a - exp b)).
Proof.
  repeat split.
  - (* a ValueError comes from the guard only *)
    destruct logx as [| a | |], logy as [| b | |]; cbn; try discriminate;
      try reflexivity.
    unfold _log_sub, flt, feq.
    destruct (Rlt_dec a b) as [Hlt | Hge].
    + intros _. apply Rltb_true; assumption.
    + rewrite (Rltb_false a b) by lra.
      destruct (Req_dec_T a b) as [Heq | Hne].
      * rewrite (Reqb_true a b) by assumption. discriminate.
      * intros H. exfalso.
        assert (Hab : b < a) by lra.
        pose proof (log_sub_finite a b Hab) as Hf.
        unfold _log_sub, flt, feq in Hf.
        rewrite (Rltb_false a b) in Hf by lra. rewrite Hf in H.
        destruct (expm1_overflows (a - b)); discriminate.
  - intros H. unfold _log_sub. rewrite H. reflexivity.
  - intros ->. unfold _log_sub.
    assert (Hlt : flt logx NInf = false) by (destruct logx; reflexivity).
    rewrite Hlt. reflexivity.
  - intros Heq. unfold _log_sub.
    destruct logx as [| a | |], logy as [| b | |]; try discriminate;
      try reflexivity.
    cbn in *. apply Reqb_spec in Heq. subst b.
    rewrite (Rltb_false a a) by lra. rewrite (Reqb_true a a) by reflexivity.
    reflexivity.
  - intros Hlt Hninf Heq. unfold _log_sub.
    rewrite Hlt, Hninf, Heq. reflexivity.
  - subst. apply log_sub_finite. assumption.
  - apply ln_exp_diff. assumption.
Qed.

End LogSpace.

(** ** Integers among the reals *)

Lemma Int_part_IZR (z : Z) : Int_part (IZR z) = z.
Proof. symmetry. apply Int_part_spec. lra. Qed.

Lemma is_integer_IZR (z : Z) : is_integer (IZR z) = true.
Proof. unfold is_integer. rewrite Int_part_IZR. apply Reqb_true. reflexivity. Qed.

Lemma is_integer_spec (a : R) : is_integer a = true <-> exists z : Z, a = IZR z.
Proof.
  split.
  - intros H. apply Reqb_spec in H. exists (Int_part a). symmetry. exact H.
  - intros [z ->]. apply is_integer_IZR.
Qed.

Lemma py_int_IZR (z : Z) : py_int (IZR z) = z.
Proof.
  unfold py_int. destruct (Rlt_dec (IZR z) 0) as [Hneg | Hpos].
  - rewrite Rltb_true by assumption.
    rewrite <- opp_IZR, Int_part_IZR. lia.
  - rewrite Rltb_false by lra. apply Int_part_IZR.
Qed.

(** ** Multiplying a float by a step count *)

Lemma fmul_one_r (x : pyfloat) : fmul x (Fin 1) = x.
Proof.
  destruct x as [| a | |]; cbn; unfold scale_inf;
    rewrite ?(Reqb_false 1 0), ?(Rltb_true 0 1) by lra; try reflexivity.
  f_equal. ring.
Qed.

Lemma fmul_fin_comm (x : pyfloat) (n : R) : fmul x (Fin n) = fmul (Fin n) x.
Proof. destruct x as [| a | |]; cbn; try reflexivity. f_equal. ring. Qed.

Lemma scale_inf_double (inf : pyfloat) (n : R) :
  inf = PInf \/ inf = NInf ->
  scale_inf inf (2 * n) = fmul (Fin 2) (scale_inf inf n).
Proof.
  intros Hinf. unfold scale_inf.
  destruct (Req_dec_T n 0) as [Hz | Hnz].
  - rewrite (Reqb_true (2 * n) 0) by lra. rewrite (Reqb_true n 0) by lra.
    reflexivity.
  - rewrite (Reqb_false (2 * n) 0) by lra. rewrite (Reqb_false n 0) by lra.
    destruct (Rlt_dec 0 n) as [Hpos | Hneg].
    + rewrite (Rltb_true 0 (2 * n)) by lra. rewrite (Rltb_true 0 n) by lra.
      destruct Hinf as [-> | ->]; cbn; unfold scale_inf;
        rewrite (Reqb_false 2 0), (Rltb_true 0 2) by lra; reflexivity.
    + rewrite (Rltb_false 0 (2 * n)) by lra. rewrite (Rltb_false 0 n) by lra.
      destruct Hinf as [-> | ->]; cbn; unfold scale_inf;
        rewrite (Reqb_false 2 0), (Rltb_true 0 2) by lra; reflexivity.
Qed.

Lemma fmul_double (x : pyfloat) (n : R) :
  fmul x (Fin (2 * n)) = fmul (Fin 2) (fmul x (Fin n)).
Proof.
  destruct x as [| a | |]; cbn [fmul].
  - apply scale_inf_double. right; reflexivity.
  - f_equal. ring.
  - apply scale_inf_double. left; reflexivity.
  - reflexivity.
Qed.

(** ** Comprehensions *)

Lemma comprehension_ret {A B : Type} (f : A -> outcome B) (g : A -> B)
    (l : list A) :
  (forall x, In x l -> f x = Ret (g x)) ->
  comprehension f l = Ret (map g l).
Proof.
  induction l as [| x l IH]; intros H; cbn.
  - reflexivity.
  - rewrite (H x) by (left; reflexivity). cbn.
    rewrite IH by (intros y Hy; apply H; right; exact Hy). reflexivity.
Qed.

Lemma per_order_ret {A B : Type} (f : A -> outcome B) (g : A -> B)
    (orders : shape A) :
  shape_all (fun o => f o = Ret (g o)) orders ->
  per_order f orders = Ret (shape_map g orders).
Proof.
  destruct orders as [o | l]; cbn; intros H.
  - rewrite H. reflexivity.
  - rewrite (comprehension_ret f g) by exact H. reflexivity.
Qed.

Lemma shape_map_map {A B C : Type} (f : A -> B) (g : B -> C) (s : shape A) :
  shape_map g (shape_map f s) = shape_map (fun a => g (f a)) s.
Proof. destruct s; cbn; [reflexivity | rewrite map_map; reflexivity]. Qed.

Lemma shape_map_ext {A B : Type} (f g : A -> B) (s : shape A) :
  (forall a, f a = g a) -> shape_map f s = shape_map g s.
Proof.
  intros H. destruct s as [a | l]; cbn; [rewrite H; reflexivity |].
  f_equal. apply map_ext. exact H.
Qed.

Section Gaussian.

Variable log_ndtr : R -> R.
Variable expm1_overflows : R -> bool.

(** C1: [_compute_rdp] tests its special cases in the order [q == 0] (0),
    [sigma == 0] (plus infinity), [q == 1] ([alpha / (2 sigma^2)], scaled by
    the steps in [compute_rdp]), infinite [alpha] (plus infinity); what is
    left goes to the integer-order path when [alpha] is an integer and to the
    fractional-order path when it is not. *)
Theorem compute_rdp_priority (fuel : nat) (q sigma : R) (alpha : order) :
  0 <= q <= 1 -> 0 <= sigma ->
  (q = 0 ->
   _compute_rdp log_ndtr expm1_overflows fuel q sigma alpha = Ret (Fin 0))
  /\ (q <> 0 -> sigma = 0 ->
      _compute_rdp log_ndtr expm1_overflows fuel q sigma alpha = Ret PInf)
  /\ (q <> 0 -> sigma <> 0 -> q = 1 ->
      _compute_rdp log_ndtr expm1_overflows fuel q sigma alpha
      = Ret (match alpha with
             | Finite a => Fin (a / (2 * sigma ^ 2))
             | Infinite => PInf
             end)
      /\ forall (steps : Z) (a : R), alpha = Finite a ->
           compute_rdp log_ndtr expm1_overflows fuel q sigma steps
             (Scalar alpha)
           = Ret (Scalar (Fin (IZR steps * a / (2 * sigma ^ 2)))))
  /\ (q <> 0 -> sigma <> 0 -> q <> 1 -> alpha = Infinite ->
      _compute_rdp log_ndtr expm1_overflows fuel q sigma alpha = Ret PInf)
  /\ (q <> 0 -> sigma <> 0 -> q <> 1 ->
      forall z : Z, alpha = Finite (IZR z) ->
        _compute_rdp log_ndtr expm1_overflows fuel q sigma alpha
        = _compute_log_a_for_int_alpha q sigma z)
  /\ (q <> 0 -> sigma <> 0 -> q <> 1 ->
      forall a : R, alpha = Finite a -> (forall z : Z, a <> IZR z) ->
        _compute_rdp log_ndtr expm1_overflows fuel q sigma alpha
        = _compute_log_a_for_frac_alpha log_ndtr expm1_overflows fuel
            q sigma a).
Proof.
  intros Hq Hsigma. unfold _compute_rdp.
  split; [| split; [| split; [| split; [| split]]]].
  - intros ->. rewrite Reqb_true by reflexivity. reflexivity.
  - intros Hq0 ->. rewrite (Reqb_false q 0) by assumption.
    rewrite Reqb_true by reflexivity. reflexivity.
  - intros Hq0 Hs0 ->. rewrite (Reqb_false 1 0) by lra.
    rewrite (Reqb_false sigma 0) by assumption.
    rewrite (Reqb_true 1 1) by reflexivity.
    assert (Hpos : 0 < 2 * sigma ^ 2).
    { assert (0 < sigma) by lra. assert (0 < sigma ^ 2) by (apply pow_lt; lra).
      lra. }
    assert (Hdiv : fdiv (order_val alpha) (Fin (2 * sigma ^ 2))
                   = Ret (match alpha with
                          | Finite a => Fin (a / (2 * sigma ^ 2))
                          | Infinite => PInf
                          end)).
    { destruct alpha as [a |]; cbn [order_val fdiv];
        rewrite (Reqb_false (2 * sigma ^ 2) 0) by lra; [reflexivity |].
      unfold scale_inf. rewrite (Reqb_false (2 * sigma ^ 2) 0) by lra.
      rewrite Rltb_true by lra. reflexivity. }
    split; [exact Hdiv |].
    intros steps a ->. unfold compute_rdp, per_order, _compute_rdp.
    rewrite (Reqb_false 1 0) by lra.
    rewrite (Reqb_false sigma 0) by assumption.
    rewrite (Reqb_true 1 1) by reflexivity.
    rewrite Hdiv. cbn. do 3 f_equal. field. lra.
  - intros Hq0 Hs0 Hq1 ->. rewrite (Reqb_false q 0) by assumption.
    rewrite (Reqb_false sigma 0) by assumption.
    rewrite (Reqb_false q 1) by assumption. reflexivity.
  - intros Hq0 Hs0 Hq1 z ->. rewrite (Reqb_false q 0) by assumption.
    rewrite (Reqb_false sigma 0) by assumption.
    rewrite (Reqb_false q 1) by assumption.
    rewrite is_integer_IZR, py_int_IZR. reflexivity.
  - intros Hq0 Hs0 Hq1 a -> Hfrac. rewrite (Reqb_false q 0) by assumption.
    rewrite (Reqb_false sigma 0) by assumption.
    rewrite (Reqb_false q 1) by assumption.
    destruct (is_integer a) eqn:Hint; [| reflexivity].
    apply is_integer_spec in Hint. destruct Hint as [z Hz].
    exfalso. exact (Hfrac z Hz).
Qed.

Lemma compute_rdp_sigma_zero (fuel : nat) (q : R) (alpha : order) :
  q <> 0 ->
  _compute_rdp log_ndtr expm1_overflows fuel q 0 alpha = Ret PInf.
Proof.
  intros Hq. unfold _compute_rdp. rewrite (Reqb_false q 0) by assumption.
  rewrite (Reqb_true 0 0) by reflexivity. reflexivity.
Qed.

(** C3, amended: with noise multiplier 0, a sampling rate in (0, 1] and a
    positive step count, [compute_rdp] returns plus infinity at every order.
    (At [q = 0] the test [q == 0] comes first.) *)
Theorem compute_rdp_sigma_zero_infinite (fuel : nat) (q : R) (steps : Z)
    (orders : shape order) :
  0 < q <= 1 -> (0 < steps)%Z ->
  compute_rdp log_ndtr expm1_overflows fuel q 0 steps orders
  = Ret (shape_map (fun _ => PInf) orders).
Proof.
  intros Hq Hsteps. unfold compute_rdp.
  rewrite (per_order_ret _ (fun _ => PInf)).
  - cbn [bind]. rewrite shape_map_map. f_equal. apply shape_map_ext.
    intros _. cbn. unfold scale_inf.
    assert (0 < IZR steps) by (apply IZR_lt; assumption).
    rewrite Reqb_false by lra. rewrite Rltb_true by lra. reflexivity.
  - destruct orders as [o | l]; cbn; intros;
      apply compute_rdp_sigma_zero; lra.
Qed.

Lemma times_steps (o : outcome (shape pyfloat)) (f : pyfloat -> pyfloat)
    (n : Z) :
  (rdp <- o ;; Ret (shape_map (fun r => fmul (f r) (Fin (IZR n))) rdp))
  = times (IZR n)
      (rdp <- o ;; Ret (shape_map (fun r => fmul (f r) (Fin (IZR 1))) rdp)).
Proof.
  unfold times. destruct o as [rdp | e |]; cbn [bind]; try reflexivity.
  rewrite shape_map_map. f_equal. apply shape_map_ext. intros r.
  rewrite fmul_one_r. apply fmul_fin_comm.
Qed.

Lemma times_double (o : outcome (shape pyfloat)) (f : pyfloat -> pyfloat)
    (n : Z) :
  (rdp <- o ;; Ret (shape_map (fun r => fmul (f r) (Fin (IZR (2 * n)))) rdp))
  = times 2
      (rdp <- o ;; Ret (shape_map (fun r => fmul (f r) (Fin (IZR n))) rdp)).
Proof.
  unfold times. destruct o as [rdp | e |]; cbn [bind]; try reflexivity.
  rewrite shape_map_map. f_equal. apply shape_map_ext. intros r.
  rewrite mult_IZR. apply fmul_double.
Qed.

(** C4: both entry points are linear in the step count, per order: the
    result at [n] steps is [n] times the result at one step, and the result
    at [2 n] steps is twice the result at [n] steps.  (This holds at every
    integer [n], and also when the result is an exception.) *)
Theorem steps_linear (fuel : nat) (q sigma p : R) (n : Z)
    (orders : shape order) :
  compute_rdp log_ndtr expm1_overflows fuel q sigma n orders
  = times (IZR n) (compute_rdp log_ndtr expm1_overflows fuel q sigma 1 orders)
  /\ compute_rdp log_ndtr expm1_overflows fuel q sigma (2 * n) orders
     = times 2 (compute_rdp log_ndtr expm1_overflows fuel q sigma n orders)
  /\ compute_rdp_randomized_response p n orders q
     = times (IZR n) (compute_rdp_randomized_response p 1 orders q)
  /\ compute_rdp_randomized_response p (2 * n) orders q
     = times 2 (compute_rdp_randomized_response p n orders q).
Proof.
  unfold compute_rdp, compute_rdp_randomized_response.
  split; [| split; [| split]].
  - apply (times_steps _ (fun r => r)).
  - apply (times_double _ (fun r => r)).
  - apply (times_steps _ (fun r => fmul (Fin q) r)).
  - apply (times_double _ (fun r => fmul (Fin q) r)).
Qed.

End Gaussian.

(** ** Randomized response *)

Lemma DBL_MAX_lower : 2 ^ 1023 <= DBL_MAX.
Proof.
  unfold DBL_MAX. replace 1023%nat with (52 + 971)%nat by reflexivity.
  rewrite pow_add. apply Rmult_le_compat_r.
  - left. apply pow_lt. lra.
  - replace 53%nat with (S 52) by reflexivity. rewrite <- tech_pow_Rmult.
    assert (1 <= 2 ^ 52) by (apply pow_R1_Rle; lra). lra.
Qed.

Lemma DBL_MAX_upper : DBL_MAX < 2 ^ 1024.
Proof.
  unfold DBL_MAX. replace 1024%nat with (53 + 971)%nat by reflexivity.
  rewrite pow_add. apply Rmult_lt_compat_r.
  - apply pow_lt. lra.
  - lra.
Qed.

Lemma below_DBL_MAX (x : R) (k : nat) :
  (k <= 1023)%nat -> x <= 2 ^ k -> x <= DBL_MAX.
Proof.
  intros Hk Hx. apply Rle_trans with (2 ^ k); [exact Hx |].
  apply Rle_trans with (2 ^ 1023); [| exact DBL_MAX_lower].
  apply Rle_pow; [lra | exact Hk].
Qed.

Lemma Rpower_pos (v e : R) : 0 < Rpower v e.
Proof. unfold Rpower. apply exp_pos. Qed.

Lemma Rpower_lt_one (v e : R) : 0 < v < 1 -> 0 < e -> Rpower v e < 1.
Proof.
  intros Hv He. unfold Rpower. rewrite <- exp_0. apply exp_increasing.
  assert (ln v < 0) by (rewrite <- ln_1; apply ln_increasing; lra).
  nra.
Qed.

Lemma Rpower_one_base (e : R) : Rpower 1 e = 1.
Proof. unfold Rpower. rewrite ln_1, Rmult_0_r. apply exp_0. Qed.

Lemma Rpower_neg_nat (x : R) (n : nat) :
  0 < x -> Rpower x (- INR n) = (/ x) ^ n.
Proof.
  intros Hx. rewrite Rpower_Ropp, Rpower_pow by assumption.
  symmetry. apply pow_inv.
Qed.

Lemma float_pow_pos (v e : R) :
  0 < v -> e <> 0 -> Rpower v e <= DBL_MAX ->
  float_pow v (Fin e) = Ret (Fin (Rpower v e)).
Proof.
  intros Hv He Hrange. unfold float_pow.
  rewrite (Reqb_false e 0) by assumption.
  rewrite (Reqb_false v 0) by lra. rewrite (Rltb_false v 0) by lra.
  rewrite Rltb_false by assumption. reflexivity.
Qed.

Lemma float_pow_pos_overflow (v e : R) :
  0 < v -> e <> 0 -> DBL_MAX < Rpower v e ->
  float_pow v (Fin e) = Raise OverflowError.
Proof.
  intros Hv He Hrange. unfold float_pow.
  rewrite (Reqb_false e 0) by assumption.
  rewrite (Reqb_false v 0) by lra. rewrite (Rltb_false v 0) by lra.
  rewrite Rltb_true by assumption. reflexivity.
Qed.

Lemma float_pow_small (v e : R) :
  0 < v < 1 -> 0 < e -> float_pow v (Fin e) = Ret (Fin (Rpower v e)).
Proof.
  intros Hv He. apply float_pow_pos; [lra | lra |].
  pose proof (Rpower_lt_one v e Hv He).
  apply (below_DBL_MAX _ 0); [lia | cbn; lra].
Qed.

Lemma float_pow_one_base (e : R) :
  e <> 0 -> float_pow 1 (Fin e) = Ret (Fin (Rpower 1 e)).
Proof.
  intros He. apply float_pow_pos; [lra | assumption |].
  rewrite Rpower_one_base. apply (below_DBL_MAX _ 0); [lia | cbn; lra].
Qed.

Lemma float_pow_zero_neg (e : R) :
  e < 0 -> float_pow 0 (Fin e) = Raise ZeroDivisionError.
Proof.
  intros He. unfold float_pow.
  rewrite (Reqb_false e 0) by lra. rewrite (Reqb_true 0 0) by reflexivity.
  rewrite Rltb_true by assumption. reflexivity.
Qed.

Lemma float_pow_zero_pos (e : R) : 0 < e -> float_pow 0 (Fin e) = Ret (Fin 0).
Proof.
  intros He. unfold float_pow.
  rewrite (Reqb_false e 0) by lra. rewrite (Reqb_true 0 0) by reflexivity.
  rewrite Rltb_false by lra. reflexivity.
Qed.

Lemma fdiv_zero (x : pyfloat) : fdiv x (Fin 0) = Raise ZeroDivisionError.
Proof.
  destruct x; cbn; rewrite (Reqb_true 0 0) by reflexivity; reflexivity.
Qed.

(** Inside (0, 1), at an order above 1: the value when the two negative
    powers stay in range. *)
Lemma rr_value (p a : R) :
  0 < p < 1 -> 1 < a ->
  Rpower p (1 - a) <= DBL_MAX -> Rpower (1 - p) (1 - a) <= DBL_MAX ->
  _compute_rdp_randomized_response p (Finite a) = Ret (Fin (rdp_rr p a)).
Proof.
  intros Hp Ha Hr1 Hr2. unfold _compute_rdp_randomized_response, rdp_rr.
  cbn [order_val fsub fneg fadd].
  rewrite (float_pow_small p a) by lra.
  rewrite (float_pow_small (1 - p) a) by lra.
  rewrite (float_pow_pos (1 - p) (1 + - a)) by (lra || exact Hr2).
  rewrite (float_pow_pos p (1 + - a)) by (lra || exact Hr1).
  cbn [bind fmul fadd math_log].
  pose proof (Rpower_pos p a). pose proof (Rpower_pos (1 - p) (1 + - a)).
  pose proof (Rpower_pos (1 - p) a). pose proof (Rpower_pos p (1 + - a)).
  rewrite Rltb_true by nra.
  cbn [bind fdiv]. rewrite Reqb_false by lra. reflexivity.
Qed.

(** The range error when one of them leaves it. *)
Lemma rr_overflow (p a : R) :
  0 < p < 1 -> 1 < a ->
  DBL_MAX < Rpower p (1 - a) \/ DBL_MAX < Rpower (1 - p) (1 - a) ->
  _compute_rdp_randomized_response p (Finite a) = Raise OverflowError.
Proof.
  intros Hp Ha Hover. unfold _compute_rdp_randomized_response.
  cbn [order_val fsub fneg fadd].
  rewrite (float_pow_small p a) by lra. cbn [bind].
  destruct (Rlt_dec DBL_MAX (Rpower (1 - p) (1 - a))) as [H2 | H2].
  - rewrite (float_pow_pos_overflow (1 - p) (1 + - a)) by (lra || exact H2).
    reflexivity.
  - rewrite (float_pow_pos (1 - p) (1 + - a)) by (lra || (apply Rnot_lt_le; exact H2)).
    rewrite (float_pow_small (1 - p) a) by lra. cbn [bind].
    destruct Hover as [H1 | H2']; [| contradiction].
    rewrite (float_pow_pos_overflow p (1 + - a)) by (lra || exact H1).
    reflexivity.
Qed.

(** At the infinite order the four powers are 0 and infinity, and their
    products are NaN. *)
Lemma rr_infinite (p : R) :
  0 < p < 1 -> _compute_rdp_randomized_response p Infinite = Ret NaN.
Proof.
  intros Hp. unfold _compute_rdp_randomized_response.
  cbn [order_val fsub fneg fadd float_pow].
  rewrite !(Rabs_pos_eq p), !(Rabs_pos_eq (1 - p)) by lra.
  rewrite !(Reqb_false p 1), !(Reqb_false (1 - p) 1) by lra.
  rewrite !(Rltb_false 1 p), !(Rltb_false 1 (1 - p)) by lra.
  cbn [bind fmul]. unfold scale_inf.
  rewrite (Reqb_true 0 0) by reflexivity. reflexivity.
Qed.

Lemma rr_infinite_endpoints (p : R) :
  p = 0 \/ p = 1 -> _compute_rdp_randomized_response p Infinite = Ret NaN.
Proof.
  intros Hp. unfold _compute_rdp_randomized_response.
  cbn [order_val fsub fneg fadd float_pow].
  destruct Hp as [-> | ->].
  - replace (1 - 0) with 1 by ring. rewrite Rabs_R0, Rabs_R1.
    rewrite !(Reqb_false 0 1), !(Rltb_false 1 0) by lra.
    rewrite !(Reqb_true 1 1) by reflexivity.
    cbn [bind fmul fadd math_log fdiv]. unfold scale_inf.
    rewrite (Reqb_false 1 0), (Rltb_true 0 1) by lra. reflexivity.
  - replace (1 - 1) with 0 by ring. rewrite Rabs_R0, Rabs_R1.
    rewrite !(Reqb_false 0 1), !(Rltb_false 1 0) by lra.
    rewrite !(Reqb_true 1 1) by reflexivity.
    cbn [bind fmul fadd math_log fdiv]. unfold scale_inf.
    rewrite (Reqb_false 1 0), (Rltb_true 0 1) by lra. reflexivity.
Qed.

(** C8, amended: for [p] in (0, 1) and finite orders above 1 at which the
    negative powers [p^(1-alpha)] and [(1-p)^(1-alpha)] stay within the
    range of the doubles, the randomized-response entry point returns, per
    order, [q * rdp_rr(p, alpha) * steps], with the factor [q]; where one of
    the two powers leaves the range it raises OverflowError, and at the
    infinite order the result is NaN. *)
Theorem randomized_response_formula (p q : R) (steps : Z)
    (alphas : shape R) :
  0 < p < 1 ->
  (shape_all (fun a => 1 < a /\ Rpower p (1 - a) <= DBL_MAX
                       /\ Rpower (1 - p) (1 - a) <= DBL_MAX) alphas ->
   compute_rdp_randomized_response p steps (shape_map Finite alphas) q
   = Ret (shape_map (fun a => Fin (q * rdp_rr p a * IZR steps)) alphas))
  /\ (forall a : R,
        1 < a ->
        DBL_MAX < Rpower p (1 - a) \/ DBL_MAX < Rpower (1 - p) (1 - a) ->
        compute_rdp_randomized_response p steps (Scalar (Finite a)) q
        = Raise OverflowError)
  /\ compute_rdp_randomized_response p steps (Scalar Infinite) q
     = Ret (Scalar NaN).
Proof.
  intros Hp. split; [| split].
  - intros Halphas. unfold compute_rdp_randomized_response.
    rewrite (per_order_ret _ (fun o => match o with
                                       | Finite a => Fin (rdp_rr p a)
                                       | Infinite => NaN
                                       end)).
    + cbn [bind]. rewrite !shape_map_map. reflexivity.
    + destruct alphas as [a | l]; cbn in *.
      * destruct Halphas as [Ha [H1 H2]]. apply rr_value; assumption.
      * intros o Ho. apply in_map_iff in Ho. destruct Ho as [a [<- Ha]].
        destruct (Halphas a Ha) as [Ha1 [H1 H2]]. apply rr_value; assumption.
  - intros a Ha Hover. unfold compute_rdp_randomized_response, per_order.
    rewrite rr_overflow by assumption. reflexivity.
  - unfold compute_rdp_randomized_response, per_order.
    rewrite rr_infinite by assumption. reflexivity.
Qed.

(** C10, amended: at [p = 0] and at [p = 1], and any finite order above 1,
    the randomized-response computation raises ZeroDivisionError (0 to the
    negative power [1 - alpha]), alone and through the entry point; for [p]
    strictly between 0 and 1 it returns a value when the two negative
    powers stay within the range of the doubles and raises OverflowError
    when one of them leaves it.  At the infinite order nothing is raised at
    [p = 0] or [p = 1]: the result is NaN. *)
Theorem randomized_response_endpoints (p q a : R) (steps : Z)
    (rest : list order) :
  1 < a ->
  ((p = 0 \/ p = 1) ->
   _compute_rdp_randomized_response p (Finite a) = Raise ZeroDivisionError
   /\ compute_rdp_randomized_response p steps (Scalar (Finite a)) q
      = Raise ZeroDivisionError
   /\ compute_rdp_randomized_response p steps (Sequence (Finite a :: rest)) q
      = Raise ZeroDivisionError)
  /\ (0 < p < 1 ->
      (Rpower p (1 - a) <= DBL_MAX -> Rpower (1 - p) (1 - a) <= DBL_MAX ->
       exists r : R,
         _compute_rdp_randomized_response p (Finite a) = Ret (Fin r))
      /\ (DBL_MAX < Rpower p (1 - a) \/ DBL_MAX < Rpower (1 - p) (1 - a) ->
          _compute_rdp_randomized_response p (Finite a)
          = Raise OverflowError))
  /\ ((p = 0 \/ p = 1) ->
      _compute_rdp_randomized_response p Infinite = Ret NaN).
Proof.
  intros Ha. split; [| split].
  - intros Hp.
    assert (Hraise : _compute_rdp_randomized_response p (Finite a)
                     = Raise ZeroDivisionError).
    { unfold _compute_rdp_randomized_response.
      cbn [order_val fsub fneg fadd].
      destruct Hp as [-> | ->].
      - rewrite (float_pow_zero_pos a) by lra.
        replace (1 - 0) with 1 by ring.
        rewrite !float_pow_one_base by lra.
        rewrite float_pow_zero_neg by lra. reflexivity.
      - rewrite (float_pow_one_base a) by lra.
        replace (1 - 1) with 0 by ring.
        rewrite float_pow_zero_neg by lra. reflexivity. }
    split; [exact Hraise |].
    unfold compute_rdp_randomized_response, per_order. cbn [comprehension].
    rewrite Hraise. split; reflexivity.
  - intros Hp. split.
    + intros H1 H2. exists (rdp_rr p a). apply rr_value; assumption.
    + intros Hover. apply rr_overflow; assumption.
  - apply rr_infinite_endpoints.
Qed.

(** ** The integer-order path returns from its loop *)

Lemma binom_pos (n : R) (k : nat) : INR k <= n -> 0 < binom n k.
Proof.
  induction k as [| k IH]; intros Hk.
  - cbn. lra.
  - rewrite S_INR in Hk. cbn [binom].
    assert (0 < binom n k) by (apply IH; lra).
    assert (0 < INR (S k)) by (apply lt_0_INR; lia).
    apply Rdiv_lt_0_compat; [| assumption].
    apply Rmult_lt_0_compat; lra.
Qed.

Lemma rlog_pos (x : R) : 0 < x -> rlog x = Ret (ln x).
Proof. intros H. unfold rlog. rewrite Rltb_true by assumption. reflexivity. Qed.

Lemma rdiv_nonzero (x y : R) : y <> 0 -> rdiv x y = Ret (x / y).
Proof. intros H. unfold rdiv. rewrite Reqb_false by assumption. reflexivity. Qed.

Lemma two_sigma_sq_nonzero (sigma : R) : sigma <> 0 -> 2 * sigma ^ 2 <> 0.
Proof.
  intros H. assert (0 < sigma ^ 2).
  { replace (sigma ^ 2) with (sigma * sigma) by ring.
    destruct (Rlt_dec sigma 0); nra. }
  lra.
Qed.

Lemma int_alpha_log_b_ret (q sigma : R) (alpha : Z) (i : nat) :
  0 < q < 1 -> sigma <> 0 -> (Z.of_nat i <= alpha)%Z ->
  exists r : R, int_alpha_log_b q sigma alpha i = Ret r.
Proof.
  intros Hq Hs Hi. unfold int_alpha_log_b.
  rewrite rlog_pos.
  - rewrite (rlog_pos q) by lra. rewrite (rlog_pos (1 - q)) by lra.
    rewrite rdiv_nonzero by (apply two_sigma_sq_nonzero; assumption).
    cbn [bind]. eexists. reflexivity.
  - apply binom_pos. rewrite INR_IZR_INZ. apply IZR_le. assumption.
Qed.

Lemma int_alpha_loop_ret (q sigma : R) (alpha : Z) (range : list nat) :
  0 < q < 1 -> sigma <> 0 ->
  (forall i, In i range -> (Z.of_nat i <= alpha)%Z) ->
  forall rdp, log_value rdp ->
  exists rdp', int_alpha_loop q sigma alpha range rdp = Ret rdp'.
Proof.
  intros Hq Hs. induction range as [| i range IH]; intros Hrange rdp Hrdp.
  - exists rdp. reflexivity.
  - cbn [int_alpha_loop].
    destruct (int_alpha_log_b_ret q sigma alpha i Hq Hs) as [log_b ->].
    { apply Hrange. left. reflexivity. }
    cbn [bind].
    assert (Hstep : exists r,
               (if feq (py_min rdp (Fin log_b)) NInf
                then Ret (py_max rdp (Fin log_b))
                else l <- math_log
                            (fadd (math_exp
                                     (fsub (py_min rdp (Fin log_b))
                                        (py_max rdp (Fin log_b))))
                               (Fin 1)) ;;
                     Ret (fadd l (py_max rdp (Fin log_b))))
               = Ret (Fin r)).
    { destruct Hrdp as [-> | [r ->]].
      - exists log_b. reflexivity.
      - unfold py_min, py_max.
        destruct (flt (Fin log_b) (Fin r)), (flt (Fin r) (Fin log_b));
          cbn [feq fsub fneg fadd math_exp math_log];
          match goal with
          | |- context [Rltb 0 (exp ?d + 1)] =>
              rewrite (Rltb_true 0 (exp d + 1))
                by (pose proof (exp_pos d); lra)
          end; cbn [bind fadd]; eexists; reflexivity. }
    destruct Hstep as [r ->]. cbn [bind].
    apply IH.
    + intros j Hj. apply Hrange. right. assumption.
    + right. exists r. reflexivity.
Qed.

Lemma int_alpha_order_one (q sigma : R) :
  0 < q < 1 -> sigma <> 0 ->
  _compute_log_a_for_int_alpha q sigma 1 = Raise ZeroDivisionError.
Proof.
  intros Hq Hs. unfold _compute_log_a_for_int_alpha.
  destruct (int_alpha_loop_ret q sigma 1 (seq 0 (Z.to_nat (1 + 1))) Hq Hs)
    with (rdp := NInf) as [rdp ->].
  - intros i Hi. apply in_seq in Hi. cbn in Hi. lia.
  - left. reflexivity.
  - cbn [bind]. replace (IZR (1 - 1)) with 0 by reflexivity.
    apply fdiv_zero.
Qed.

Lemma float_pow_one (v : R) :
  0 <= v <= 1 -> float_pow v (Fin 1) = Ret (Fin v).
Proof.
  intros Hv. destruct (Req_dec_T v 0) as [-> | Hnz].
  - apply float_pow_zero_pos. lra.
  - rewrite float_pow_pos.
    + rewrite Rpower_1 by lra. reflexivity.
    + lra.
    + lra.
    + rewrite Rpower_1 by lra. apply (below_DBL_MAX _ 0); [lia | cbn; lra].
Qed.

Lemma float_pow_exp_zero (v : R) : float_pow v (Fin (1 + - (1))) = Ret (Fin 1).
Proof. unfold float_pow. rewrite Reqb_true by lra. reflexivity. Qed.

Lemma rr_order_one (p : R) :
  0 <= p <= 1 ->
  _compute_rdp_randomized_response p (Finite 1) = Raise ZeroDivisionError.
Proof.
  intros Hp. unfold _compute_rdp_randomized_response.
  cbn [order_val fsub fneg fadd].
  rewrite !float_pow_one by lra. rewrite !float_pow_exp_zero.
  cbn [bind fmul fadd math_log]. rewrite Rltb_true by lra.
  cbn [bind fdiv]. rewrite Reqb_true by lra. reflexivity.
Qed.

Section OrderOne.

Variable log_ndtr : R -> R.
Variable expm1_overflows : R -> bool.

(** C9, amended: an order equal to exactly 1 is not validated.  The special
    cases of the Gaussian computation return as at any other order (0 at
    [q = 0], plus infinity at [sigma = 0], [1 / (2 sigma^2)] at [q = 1]);
    otherwise 1 is an integer, the integer-order path runs and its final
    division by [alpha - 1] raises ZeroDivisionError, as does the division in
    the randomized-response formula for every [p] in [0, 1]. *)
Theorem order_one_unvalidated (fuel : nat) (q sigma p q' : R) (steps : Z) :
  0 <= q <= 1 -> 0 <= sigma -> 0 <= p <= 1 ->
  (q = 0 ->
   _compute_rdp log_ndtr expm1_overflows fuel q sigma (Finite 1)
   = Ret (Fin 0))
  /\ (q <> 0 -> sigma = 0 ->
      _compute_rdp log_ndtr expm1_overflows fuel q sigma (Finite 1)
      = Ret PInf)
  /\ (q = 1 -> sigma <> 0 ->
      _compute_rdp log_ndtr expm1_overflows fuel q sigma (Finite 1)
      = Ret (Fin (1 / (2 * sigma ^ 2))))
  /\ (0 < q < 1 -> sigma <> 0 ->
      _compute_rdp log_ndtr expm1_overflows fuel q sigma (Finite 1)
      = Raise ZeroDivisionError
      /\ compute_rdp log_ndtr expm1_overflows fuel q sigma steps
           (Scalar (Finite 1))
         = Raise ZeroDivisionError)
  /\ _compute_rdp_randomized_response p (Finite 1) = Raise ZeroDivisionError
  /\ compute_rdp_randomized_response p steps (Scalar (Finite 1)) q'
     = Raise ZeroDivisionError.
Proof.
  intros Hq Hsigma Hp. split; [| split; [| split; [| split; [| split]]]].
  - intros ->. unfold _compute_rdp. rewrite Reqb_true by reflexivity.
    reflexivity.
  - intros Hq0 ->. unfold _compute_rdp.
    rewrite (Reqb_false q 0) by assumption.
    rewrite Reqb_true by reflexivity. reflexivity.
  - intros -> Hs. unfold _compute_rdp.
    rewrite (Reqb_false 1 0) by lra. rewrite (Reqb_false sigma 0) by assumption.
    rewrite (Reqb_true 1 1) by reflexivity. cbn [order_val fdiv].
    rewrite Reqb_false by (apply two_sigma_sq_nonzero; assumption).
    reflexivity.
  - intros Hq01 Hs.
    assert (Hraise : _compute_rdp log_ndtr expm1_overflows fuel q sigma
                       (Finite 1) = Raise ZeroDivisionError).
    { unfold _compute_rdp.
      rewrite (Reqb_false q 0) by lra. rewrite (Reqb_false sigma 0) by assumption.
      rewrite (Reqb_false q 1) by lra.
      rewrite (is_integer_IZR 1), (py_int_IZR 1).
      apply int_alpha_order_one; assumption. }
    split; [exact Hraise |].
    unfold compute_rdp, per_order. rewrite Hraise. reflexivity.
  - apply rr_order_one. assumption.
  - unfold compute_rdp_randomized_response, per_order.
    rewrite rr_order_one by assumption. reflexivity.
Qed.

End OrderOne.

(** ** The fractional-order loop *)

Lemma binom_nonzero (alpha : R) (k : nat) :
  (forall z : Z, alpha <> IZR z) -> binom alpha k <> 0.
Proof.
  intros Hfrac. induction k as [| k IH]; cbn [binom].
  - lra.
  - assert (Hk : alpha - INR k <> 0).
    { intros H. apply (Hfrac (Z.of_nat k)). rewrite <- INR_IZR_INZ. lra. }
    assert (HS : INR (S k) <> 0) by (apply not_0_INR; lia).
    unfold Rdiv. apply Rmult_integral_contrapositive_currified.
    + apply Rmult_integral_contrapositive_currified; assumption.
    + apply Rinv_neq_0_compat. assumption.
Qed.

Lemma exit_test (s0 s1 : R) :
  flt (py_max (Fin s0) (Fin s1)) (Fin (-30)) = true
  <-> s0 < -30 /\ s1 < -30.
Proof.
  unfold py_max, flt. destruct (Rlt_dec s0 s1) as [H | H].
  - rewrite (Rltb_true s0 s1) by assumption. rewrite Rltb_spec. lra.
  - rewrite (Rltb_false s0 s1) by lra. rewrite Rltb_spec. lra.
Qed.

Lemma log_add_from_zero (s : R) : _log_add NInf (Fin s) = Ret (Fin s).
Proof. reflexivity. Qed.

Section Fractional.

Variable log_ndtr : R -> R.
Variable expm1_overflows : R -> bool.
Variables q sigma alpha z0 : R.
Hypothesis q_range : 0 < q < 1.
Hypothesis sigma_nonzero : sigma <> 0.
Hypothesis alpha_fractional : forall z : Z, alpha <> IZR z.

Lemma frac_alpha_terms_ret (i : nat) :
  frac_alpha_terms log_ndtr q sigma alpha z0 i
  = Ret (binom alpha i,
         series_log_s0 log_ndtr q sigma alpha z0 i,
         series_log_s1 log_ndtr q sigma alpha z0 i).
Proof.
  unfold frac_alpha_terms, series_log_s0, series_log_s1.
  assert (Hsqrt : sqrt 2 * sigma <> 0).
  { pose proof (sqrt_lt_R0 2). apply Rmult_integral_contrapositive_currified;
      [lra | assumption]. }
  rewrite (rlog_pos (Rabs (binom alpha i)))
    by (apply Rabs_pos_lt, binom_nonzero, alpha_fractional).
  rewrite (rlog_pos q) by lra.
  rewrite (rlog_pos (1 - q)) by lra.
  rewrite (rlog_pos (1 / 2)) by lra.
  rewrite !(rdiv_nonzero _ (sqrt 2 * sigma)) by assumption.
  rewrite !(rdiv_nonzero _ (2 * sigma ^ 2))
    by (apply two_sigma_sq_nonzero; assumption).
  reflexivity.
Qed.

(** The branch of the loop body is the specification's update. *)
Lemma loop_update (i : nat) (s0 s1 : R) (acc : pyfloat * pyfloat) :
  (if Rltb 0 (binom alpha i) then
     a0 <- _log_add (fst acc) (Fin s0) ;;
     a1 <- _log_add (snd acc) (Fin s1) ;;
     Ret (a0, a1)
   else
     a0 <- _log_sub expm1_overflows (fst acc) (Fin s0) ;;
     a1 <- _log_sub expm1_overflows (snd acc) (Fin s1) ;;
     Ret (a0, a1))
  = accumulate expm1_overflows (binom alpha i) s0 s1 acc.
Proof.
  unfold accumulate.
  destruct (Rlt_dec 0 (binom alpha i)) as [Hpos | Hnpos].
  - rewrite Rltb_true by assumption. reflexivity.
  - rewrite (Rltb_false 0 (binom alpha i)) by lra.
    pose proof (binom_nonzero alpha i alpha_fractional).
    rewrite Rltb_true by lra. reflexivity.
Qed.

Lemma frac_alpha_loop_unfold (fuel i : nat) (acc : pyfloat * pyfloat) :
  frac_alpha_loop log_ndtr expm1_overflows (S fuel) q sigma alpha z0 i
    (fst acc) (snd acc)
  = (acc' <- accumulate expm1_overflows (binom alpha i)
               (series_log_s0 log_ndtr q sigma alpha z0 i)
               (series_log_s1 log_ndtr q sigma alpha z0 i) acc ;;
     if flt (py_max (Fin (series_log_s0 log_ndtr q sigma alpha z0 i))
               (Fin (series_log_s1 log_ndtr q sigma alpha z0 i)))
          (Fin (-30))
     then Ret acc'
     else frac_alpha_loop log_ndtr expm1_overflows fuel q sigma alpha z0
            (S i) (fst acc') (snd acc')).
Proof.
  cbn [frac_alpha_loop]. rewrite frac_alpha_terms_ret. cbn [bind].
  rewrite loop_update.
  destruct (accumulate _ _ _ _ acc) as [[a0 a1] | e |]; reflexivity.
Qed.

(** The loop leaves at the first index whose two terms are negligible, with
    every term up to and including that one accumulated. *)
Lemma frac_alpha_loop_exit (k : nat) :
  forall (i fuel : nat) (acc : pyfloat * pyfloat),
    (forall m, (i <= m < i + k)%nat ->
               ~ negligible log_ndtr q sigma alpha z0 m) ->
    negligible log_ndtr q sigma alpha z0 (i + k) ->
    (k < fuel)%nat ->
    frac_alpha_loop log_ndtr expm1_overflows fuel q sigma alpha z0 i
      (fst acc) (snd acc)
    = accumulate_from log_ndtr expm1_overflows q sigma alpha z0 i k acc.
Proof.
  induction k as [| k IH]; intros i fuel acc Hbefore Hat Hfuel;
    (destruct fuel as [| fuel]; [lia |]);
    rewrite frac_alpha_loop_unfold; cbn [accumulate_from];
    destruct (accumulate _ _ _ _ acc) as [acc' | e |]; cbn [bind];
    try reflexivity.
  - rewrite Nat.add_0_r in Hat. apply exit_test in Hat. rewrite Hat.
    reflexivity.
  - assert (Hi : ~ negligible log_ndtr q sigma alpha z0 i)
      by (apply Hbefore; lia).
    destruct (flt _ (Fin (-30))) eqn:Htest.
    + exfalso. apply Hi. apply exit_test. exact Htest.
    + apply IH.
      * intros m Hm. apply Hbefore. lia.
      * replace (S i + k)%nat with (i + S k)%nat by lia. exact Hat.
      * lia.
Qed.

End Fractional.

(** ** Fuel is only spent by the loop *)

Lemma first_index (P : nat -> Prop) (dec : forall n, {P n} + {~ P n})
    (n : nat) :
  P n -> exists N, (N <= n)%nat /\ P N /\ forall m, (m < N)%nat -> ~ P m.
Proof.
  intros Hn.
  assert (H : (exists N, (N <= n)%nat /\ P N
                         /\ forall m, (m < N)%nat -> ~ P m)
              \/ forall m, (m <= n)%nat -> ~ P m).
  { clear Hn. induction n as [| n [IH | IH]].
    - destruct (dec 0%nat) as [H0 | H0].
      + left. exists 0%nat. repeat split; [lia | exact H0 | intros m Hm; lia].
      + right. intros m Hm. replace m with 0%nat by lia. exact H0.
    - left. destruct IH as [N [HN HP]]. exists N. split; [lia | exact HP].
    - destruct (dec (S n)) as [HS | HS].
      + left. exists (S n). repeat split; [lia | exact HS |].
        intros m Hm. apply IH. lia.
      + right. intros m Hm. destruct (Nat.eq_dec m (S n)) as [-> | Hne].
        * exact HS.
        * apply IH. lia. }
  destruct H as [H | H]; [exact H |].
  exfalso. exact (H n (Nat.le_refl n) Hn).
Qed.

Lemma bind_fuel {A B : Type} (c : outcome A) (k : A -> outcome B) :
  c <> OutOfFuel -> (forall a, k a <> OutOfFuel) -> bind c k <> OutOfFuel.
Proof. intros Hc Hk. destruct c; cbn; [apply Hk | discriminate | congruence]. Qed.

Lemma math_log_fuel (x : pyfloat) : math_log x <> OutOfFuel.
Proof. destruct x; cbn; try discriminate. destruct (Rltb 0 r); discriminate. Qed.

Lemma math_log1p_fuel (x : pyfloat) : math_log1p x <> OutOfFuel.
Proof. destruct x; cbn; try discriminate. destruct (Rltb (-1) r); discriminate. Qed.

Lemma fdiv_fuel (x y : pyfloat) : fdiv x y <> OutOfFuel.
Proof.
  destruct x, y; cbn; try discriminate;
    match goal with |- context [Reqb ?a ?b] => destruct (Reqb a b) end;
    discriminate.
Qed.

Lemma log_add_fuel (x y : pyfloat) : _log_add x y <> OutOfFuel.
Proof.
  unfold _log_add. destruct (feq _ NInf); [discriminate |].
  apply bind_fuel; [apply math_log1p_fuel | discriminate].
Qed.

Lemma log_sub_fuel (ov : R -> bool) (x y : pyfloat) :
  _log_sub ov x y <> OutOfFuel.
Proof.
  unfold _log_sub.
  destruct (flt x y); [discriminate |].
  destruct (feq y NInf); [discriminate |].
  destruct (feq x y); [discriminate |].
  assert (H : (e <- math_expm1 ov (fsub x y) ;;
               l <- math_log e ;; Ret (fadd l y)) <> OutOfFuel).
  { apply bind_fuel.
    - destruct (fsub x y); cbn; try discriminate.
      destruct (ov r); discriminate.
    - intros e. apply bind_fuel; [apply math_log_fuel | discriminate]. }
  destruct (e <- math_expm1 ov (fsub x y) ;; l <- math_log e ;; Ret (fadd l y))
    as [v | [] |]; cbn; try discriminate. congruence.
Qed.

Lemma accumulate_fuel (ov : R -> bool) (coef s0 s1 : R)
    (acc : pyfloat * pyfloat) :
  accumulate ov coef s0 s1 acc <> OutOfFuel.
Proof.
  unfold accumulate. destruct (Rltb 0 coef); [| destruct (Rltb coef 0)].
  - apply bind_fuel; [apply log_add_fuel | intros a0].
    apply bind_fuel; [apply log_add_fuel | discriminate].
  - apply bind_fuel; [apply log_sub_fuel | intros a0].
    apply bind_fuel; [apply log_sub_fuel | discriminate].
  - discriminate.
Qed.

Lemma accumulate_from_fuel (log_ndtr : R -> R) (ov : R -> bool)
    (q sigma alpha z0 : R) (k : nat) :
  forall (i : nat) (acc : pyfloat * pyfloat),
    accumulate_from log_ndtr ov q sigma alpha z0 i k acc <> OutOfFuel.
Proof.
  induction k as [| k IH]; intros i acc; cbn [accumulate_from];
    (apply bind_fuel; [apply accumulate_fuel | intros acc']).
  - discriminate.
  - apply IH.
Qed.

Section Convergence.

Variable log_ndtr : R -> R.
Variable expm1_overflows : R -> bool.

Lemma negligible_dec (q sigma alpha z0 : R) (i : nat) :
  {negligible log_ndtr q sigma alpha z0 i}
  + {~ negligible log_ndtr q sigma alpha z0 i}.
Proof.
  unfold negligible.
  destruct (Rlt_dec (series_log_s0 log_ndtr q sigma alpha z0 i) (-30));
    destruct (Rlt_dec (series_log_s1 log_ndtr q sigma alpha z0 i) (-30));
    (left; split; assumption) || (right; intros [H0 H1]; contradiction).
Qed.

Lemma frac_alpha_crossover (fuel : nat) (q sigma alpha : R) :
  0 < q < 1 ->
  _compute_log_a_for_frac_alpha log_ndtr expm1_overflows fuel q sigma alpha
  = ('(log_a0, log_a1) <-
       frac_alpha_loop log_ndtr expm1_overflows fuel q sigma alpha
         (crossover q sigma) 0 NInf NInf ;;
     s <- _log_add log_a0 log_a1 ;;
     fdiv s (Fin (alpha - 1))).
Proof.
  intros Hq. unfold _compute_log_a_for_frac_alpha, crossover.
  rewrite rdiv_nonzero by lra. cbn [bind].
  rewrite rlog_pos; [reflexivity |].
  assert (1 < 1 / q).
  { apply Rmult_lt_reg_r with q; [lra |]. field_simplify; lra. }
  lra.
Qed.

Lemma frac_alpha_first_exit (q sigma alpha : R) (N fuel : nat) :
  0 < q < 1 -> 0 < sigma -> (forall z : Z, alpha <> IZR z) ->
  negligible log_ndtr q sigma alpha (crossover q sigma) N ->
  (forall m, (m < N)%nat ->
             ~ negligible log_ndtr q sigma alpha (crossover q sigma) m) ->
  (N < fuel)%nat ->
  frac_alpha_loop log_ndtr expm1_overflows fuel q sigma alpha
    (crossover q sigma) 0 NInf NInf
  = accumulate_from log_ndtr expm1_overflows q sigma alpha
      (crossover q sigma) 0 N (NInf, NInf).
Proof.
  intros Hq Hsigma Hfrac HN Hfirst Hfuel.
  apply (frac_alpha_loop_exit log_ndtr expm1_overflows q sigma alpha
           (crossover q sigma) Hq (Rgt_not_eq _ _ Hsigma) Hfrac N 0 fuel
           (NInf, NInf)); try assumption.
  intros m Hm. apply Hfirst. lia.
Qed.

(** C2: at a fractional order, with [0 < q < 1] and [sigma > 0], if the two
    series terms are both below -30 at some index, the loop runs up to the
    first such index [N] and stops there, whatever fuel above [N] it is
    given: the two sums start at minus infinity, take every term from index 0
    to [N] (by [log_add] at a positive coefficient, by [log_sub] at a
    negative one), the test comes after the update, and the result is
    [log_add(log_a0, log_a1) / (alpha - 1)].  When the test already holds at
    index 0, that term is in the sums all the same. *)
Theorem frac_alpha_convergence (q sigma alpha : R) (n : nat) :
  0 < q < 1 -> 0 < sigma -> 1 < alpha -> (forall z : Z, alpha <> IZR z) ->
  negligible log_ndtr q sigma alpha (crossover q sigma) n ->
  exists N : nat,
    (N <= n)%nat
    /\ negligible log_ndtr q sigma alpha (crossover q sigma) N
    /\ (forall m, (m < N)%nat ->
                  ~ negligible log_ndtr q sigma alpha (crossover q sigma) m)
    /\ forall fuel : nat, (N < fuel)%nat ->
         _compute_log_a_for_frac_alpha log_ndtr expm1_overflows fuel
           q sigma alpha
         = (acc <- accumulate_from log_ndtr expm1_overflows q sigma alpha
                     (crossover q sigma) 0 N (NInf, NInf) ;;
            s <- _log_add (fst acc) (snd acc) ;;
            fdiv s (Fin (alpha - 1)))
         /\ _compute_log_a_for_frac_alpha log_ndtr expm1_overflows fuel
              q sigma alpha <> OutOfFuel
         /\ (N = 0%nat ->
             _compute_log_a_for_frac_alpha log_ndtr expm1_overflows fuel
               q sigma alpha
             = (s <- _log_add
                       (Fin (series_log_s0 log_ndtr q sigma alpha
                               (crossover q sigma) 0))
                       (Fin (series_log_s1 log_ndtr q sigma alpha
                               (crossover q sigma) 0)) ;;
                fdiv s (Fin (alpha - 1)))).
Proof.
  intros Hq Hsigma Halpha Hfrac Hn.
  destruct (first_index _ (negligible_dec q sigma alpha (crossover q sigma))
              n Hn) as [N [HNn [HN Hfirst]]].
  exists N. split; [assumption | split; [assumption | split; [assumption |]]].
  intros fuel Hfuel. split; [| split].
  - rewrite frac_alpha_crossover by assumption.
    rewrite (frac_alpha_first_exit q sigma alpha N fuel); try assumption.
    + destruct (accumulate_from _ _ _ _ _ _ _ _ _) as [[a0 a1] | e |];
        reflexivity.
  - rewrite frac_alpha_crossover by assumption.
    rewrite (frac_alpha_first_exit q sigma alpha N fuel); try assumption.
    + apply bind_fuel; [apply accumulate_from_fuel | intros [a0 a1]].
      apply bind_fuel; [apply log_add_fuel | intros s; apply fdiv_fuel].
  - intros HN0. subst N. rewrite frac_alpha_crossover by assumption.
    rewrite (frac_alpha_first_exit q sigma alpha 0 fuel); try assumption.
    + cbn [accumulate_from binom]. unfold accumulate.
      rewrite (Rltb_true 0 1) by lra. cbn [fst snd].
      rewrite !log_add_from_zero. reflexivity.
Qed.

End Convergence.

(** * Concrete runs *)

Lemma ln_half : ln (1 / 2) = - ln 2.
Proof. replace (1 / 2) with (/ 2) by lra. apply ln_Rinv. lra. Qed.

Lemma three_halves_fractional : forall z : Z, 3 / 2 <> IZR z.
Proof.
  intros z H. assert (H3 : IZR (2 * z) = IZR 3) by (rewrite mult_IZR; lra).
  apply eq_IZR in H3. lia.
Qed.

(** C7 at [logx = 0], [logy = -inf]. *)
Lemma log_add_commutative_identity_witness :
  Fin 0 <> NaN /\ NInf <> NaN
  /\ _log_add (Fin 0) NInf = _log_add NInf (Fin 0)
  /\ _log_add (Fin 0) NInf = Ret (Fin 0).
Proof.
  assert (H0 : Fin 0 <> NaN) by discriminate.
  assert (H1 : NInf <> NaN) by discriminate.
  destruct (log_add_commutative_identity (Fin 0) NInf H0 H1) as [Hc [Hi _]].
  exact (conj H0 (conj H1 (conj Hc Hi))).
Defined.

(** C1 at [q = 1], [sigma = 1], [alpha = 2]. *)
Lemma compute_rdp_priority_witness :
  0 <= 1 <= 1 /\ 0 <= 1
  /\ _compute_rdp (fun x => x) (fun _ => false) 0 1 1 (Finite 2)
     = Ret (Fin (2 / (2 * 1 ^ 2))).
Proof.
  assert (Hq : 0 <= 1 <= 1) by lra.
  assert (Hs : 0 <= 1) by lra.
  destruct (compute_rdp_priority (fun x => x) (fun _ => false) 0 1 1
              (Finite 2) Hq Hs) as [_ [_ [H1 _]]].
  destruct H1 as [Hval _]; [lra | lra | reflexivity |].
  exact (conj Hq (conj Hs Hval)).
Defined.

(** C2 at [q = 1/2], [sigma = 1], [alpha = 3/2], with a normal tail so light
    that the first pair of terms is already negligible. *)
Lemma frac_alpha_negligible_at_zero :
  negligible (fun _ => -100) (1 / 2) 1 (3 / 2) (crossover (1 / 2) 1) 0.
Proof.
  unfold negligible, series_log_s0, series_log_s1, _log_erfc.
  cbn [binom INR]. rewrite Rabs_R1, ln_1.
  replace (1 - 1 / 2) with (1 / 2) by lra. rewrite ln_half.
  pose proof ln_lt_2. split; lra.
Qed.

Lemma frac_alpha_convergence_witness :
  0 < 1 / 2 < 1 /\ 0 < 1 /\ 1 < 3 / 2
  /\ (forall z : Z, 3 / 2 <> IZR z)
  /\ negligible (fun _ => -100) (1 / 2) 1 (3 / 2) (crossover (1 / 2) 1) 0
  /\ exists N : nat,
       (N <= 0)%nat
       /\ forall fuel : nat, (N < fuel)%nat ->
            _compute_log_a_for_frac_alpha (fun _ => -100) (fun _ => false)
              fuel (1 / 2) 1 (3 / 2) <> OutOfFuel.
Proof.
  assert (Hq : 0 < 1 / 2 < 1) by lra.
  assert (Hs : 0 < 1) by lra.
  assert (Ha : 1 < 3 / 2) by lra.
  destruct (frac_alpha_convergence (fun _ => -100) (fun _ => false)
              (1 / 2) 1 (3 / 2) 0 Hq Hs Ha three_halves_fractional
              frac_alpha_negligible_at_zero) as [N [HN [_ [_ Hrun]]]].
  refine (conj Hq (conj Hs (conj Ha (conj three_halves_fractional
            (conj frac_alpha_negligible_at_zero _))))).
  exists N. split; [exact HN |].
  intros fuel Hfuel. exact (proj1 (proj2 (Hrun fuel Hfuel))).
Defined.

(** C3 as stated fails at [q = 0]: the result is 0, not plus infinity. *)
Lemma sigma_zero_at_q_zero :
  0 <= 0 <= 1
  /\ compute_rdp (fun x => x) (fun _ => false) 0 0 0 1 (Scalar (Finite 2))
     = Ret (Scalar (Fin 0))
  /\ compute_rdp (fun x => x) (fun _ => false) 0 0 0 1 (Scalar (Finite 2))
     <> Ret (Scalar PInf).
Proof.
  assert (H : compute_rdp (fun x => x) (fun _ => false) 0 0 0 1
                (Scalar (Finite 2)) = Ret (Scalar (Fin 0))).
  { unfold compute_rdp, per_order, _compute_rdp.
    rewrite (Reqb_true 0 0) by reflexivity. cbn. do 3 f_equal. ring. }
  split; [lra | split; [exact H |]].
  rewrite H. discriminate.
Qed.

(** C3, amended, at [q = 1/2], one step and the orders 2 and infinity. *)
Lemma compute_rdp_sigma_zero_infinite_witness :
  0 < 1 / 2 <= 1 /\ (0 < 1)%Z
  /\ compute_rdp (fun x => x) (fun _ => false) 0 (1 / 2) 0 1
       (Sequence [Finite 2; Infinite])
     = Ret (Sequence [PInf; PInf]).
Proof.
  assert (Hq : 0 < 1 / 2 <= 1) by lra.
  assert (Hn : (0 < 1)%Z) by lia.
  exact (conj Hq (conj Hn
           (compute_rdp_sigma_zero_infinite (fun x => x) (fun _ => false) 0
              (1 / 2) 1 (Sequence [Finite 2; Infinite]) Hq Hn))).
Defined.

Lemma half_inverse_power : Rpower (1 / 2) (1 - 2) = 2.
Proof.
  replace (1 - 2) with (- INR 1) by (cbn; ring).
  rewrite Rpower_neg_nat by lra. cbn. field.
Qed.

(** C8, amended, at [p = 1/2], [q = 1/20], 100 steps and the order 2. *)
Lemma randomized_response_formula_witness :
  0 < 1 / 2 < 1
  /\ (1 < 2 /\ Rpower (1 / 2) (1 - 2) <= DBL_MAX
      /\ Rpower (1 - 1 / 2) (1 - 2) <= DBL_MAX)
  /\ compute_rdp_randomized_response (1 / 2) 100 (Scalar (Finite 2)) (1 / 20)
     = Ret (Scalar (Fin (1 / 20 * rdp_rr (1 / 2) 2 * IZR 100))).
Proof.
  assert (Hp : 0 < 1 / 2 < 1) by lra.
  assert (Hr : Rpower (1 / 2) (1 - 2) <= DBL_MAX).
  { rewrite half_inverse_power. apply (below_DBL_MAX _ 1); [lia | cbn; lra]. }
  assert (Ha : 1 < 2 /\ Rpower (1 / 2) (1 - 2) <= DBL_MAX
               /\ Rpower (1 - 1 / 2) (1 - 2) <= DBL_MAX).
  { split; [lra | split; [exact Hr |]].
    replace (1 - 1 / 2) with (1 / 2) by lra. exact Hr. }
  exact (conj Hp (conj Ha
           (proj1 (randomized_response_formula (1 / 2) (1 / 20) 100
                     (Scalar 2) Hp) Ha))).
Defined.

Lemma thousand_power_overflows : DBL_MAX < Rpower (1 / 1000) (1 - 127).
Proof.
  replace (1 - 127) with (- INR 126)
    by (rewrite INR_IZR_INZ; change (IZR (Z.of_nat 126)) with 126; ring).
  rewrite Rpower_neg_nat by lra.
  replace (/ (1 / 1000)) with 1000 by field.
  apply Rlt_le_trans with (2 ^ 1024); [exact DBL_MAX_upper |].
  apply Rle_trans with ((2 ^ 9) ^ 126).
  - rewrite <- pow_mult. apply Rle_pow; [lra | lia].
  - apply pow_incr. split; [left; apply pow_lt; lra | cbn; lra].
Qed.

Lemma half_power_overflows : DBL_MAX < Rpower (1 / 2) (1 - 1100).
Proof.
  replace (1 - 1100) with (- INR 1099)
    by (rewrite INR_IZR_INZ; change (IZR (Z.of_nat 1099)) with 1099; ring).
  rewrite Rpower_neg_nat by lra.
  replace (/ (1 / 2)) with 2 by field.
  apply Rlt_le_trans with (2 ^ 1024); [exact DBL_MAX_upper |].
  apply Rle_pow; [lra | lia].
Qed.

(** C8 as stated fails at [p = 0.001] and the order 127, where
    [0.001 ** -126] leaves the range of the doubles and OverflowError is
    raised instead of the value of the formula; and at [p = 0.5] the result
    is not 0 at every order: at the order 1100 the same error is raised. *)
Lemma randomized_response_overflow :
  0 < 1 / 1000 < 1 /\ 1 < 127
  /\ compute_rdp_randomized_response (1 / 1000) 1 (Scalar (Finite 127)) 1
     = Raise OverflowError
  /\ compute_rdp_randomized_response (1 / 2) 1 (Scalar (Finite 1100)) 1
     = Raise OverflowError
  /\ compute_rdp_randomized_response (1 / 2) 1 (Scalar (Finite 1100)) 1
     <> Ret (Scalar (Fin 0)).
Proof.
  assert (H1 : compute_rdp_randomized_response (1 / 1000) 1
                 (Scalar (Finite 127)) 1 = Raise OverflowError).
  { unfold compute_rdp_randomized_response, per_order.
    rewrite rr_overflow; [reflexivity | lra | lra |].
    left. exact thousand_power_overflows. }
  assert (H2 : compute_rdp_randomized_response (1 / 2) 1
                 (Scalar (Finite 1100)) 1 = Raise OverflowError).
  { unfold compute_rdp_randomized_response, per_order.
    rewrite rr_overflow; [reflexivity | lra | lra |].
    left. exact half_power_overflows. }
  split; [lra | split; [lra | split; [exact H1 | split; [exact H2 |]]]].
  rewrite H2. discriminate.
Qed.

(** C10 as stated fails inside (0, 1): at [p = 0.001] and the order 127 the
    per-order computation raises OverflowError and returns no value. *)
Lemma randomized_response_not_total :
  0 < 1 / 1000 < 1 /\ 1 < 127
  /\ _compute_rdp_randomized_response (1 / 1000) (Finite 127)
     = Raise OverflowError
  /\ forall v : pyfloat,
       _compute_rdp_randomized_response (1 / 1000) (Finite 127) <> Ret v.
Proof.
  assert (H : _compute_rdp_randomized_response (1 / 1000) (Finite 127)
              = Raise OverflowError).
  { apply rr_overflow; [lra | lra |]. left. exact thousand_power_overflows. }
  split; [lra | split; [lra | split; [exact H |]]].
  intros v. rewrite H. discriminate.
Qed.

(** C9 as stated fails at [q = 0]: the order 1 is accepted and the result is
    a value, 0, not an exception of any kind. *)
Lemma order_one_accepted :
  compute_rdp (fun x => x) (fun _ => false) 0 0 1 1 (Scalar (Finite 1))
  = Ret (Scalar (Fin 0))
  /\ forall e : exn,
       compute_rdp (fun x => x) (fun _ => false) 0 0 1 1 (Scalar (Finite 1))
       <> Raise e.
Proof.
  assert (H : compute_rdp (fun x => x) (fun _ => false) 0 0 1 1
                (Scalar (Finite 1)) = Ret (Scalar (Fin 0))).
  { unfold compute_rdp, per_order, _compute_rdp.
    rewrite (Reqb_true 0 0) by reflexivity. cbn. do 3 f_equal. ring. }
  split; [exact H |]. intros e. rewrite H. discriminate.
Qed.

(** C9, amended, at [q = 1/2], [sigma = 1], [p = 1/2]. *)
Lemma order_one_unvalidated_witness :
  0 <= 1 / 2 <= 1 /\ 0 <= 1 /\ 0 <= 1 / 2 <= 1
  /\ compute_rdp (fun x => x) (fun _ => false) 0 (1 / 2) 1 1
       (Scalar (Finite 1))
     = Raise ZeroDivisionError
  /\ compute_rdp_randomized_response (1 / 2) 1 (Scalar (Finite 1)) (1 / 20)
     = Raise ZeroDivisionError.
Proof.
  assert (Hq : 0 <= 1 / 2 <= 1) by lra.
  assert (Hs : 0 <= 1) by lra.
  destruct (order_one_unvalidated (fun x => x) (fun _ => false) 0 (1 / 2) 1
              (1 / 2) (1 / 20) 1 Hq Hs Hq) as [_ [_ [_ [Hg [_ Hr]]]]].
  destruct Hg as [_ Hg]; [lra | lra |].
  exact (conj Hq (conj Hs (conj Hq (conj Hg Hr)))).
Defined.

(** C10, amended, at [p = 0] and the order 2. *)
Lemma randomized_response_endpoints_witness :
  1 < 2
  /\ compute_rdp_randomized_response 0 100 (Scalar (Finite 2)) (1 / 20)
     = Raise ZeroDivisionError.
Proof.
  assert (Ha : 1 < 2) by lra.
  destruct (randomized_response_endpoints 0 (1 / 20) 2 100 [] Ha) as [H _].
  destruct H as [_ [H _]]; [left; reflexivity |].
  exact (conj Ha H).
Defined.

(** * Further properties of the module *)

(** ** Log-space arithmetic stays near its operands *)

(** X2: the sum of two reals in log space is at least the larger one and
    at most [log 2] above it, so it does not overflow where its operands did
    not. *)
Theorem log_add_bounds (a b : R) :
  exists c : R,
    _log_add (Fin a) (Fin b) = Ret (Fin c)
    /\ Rmax a b <= c <= Rmax a b + ln 2.
Proof.
  exists (ln (1 + exp (Rmin a b - Rmax a b)) + Rmax a b).
  split; [apply log_add_finite |].
  set (d := Rmin a b - Rmax a b).
  assert (Hd : d <= 0).
  { unfold d. pose proof (Rmin_l a b). pose proof (Rmax_l a b). lra. }
  pose proof (exp_pos d) as Hpos.
  assert (Hle : exp d <= 1).
  { rewrite <- exp_0. destruct Hd as [Hlt | Heq].
    - left. apply exp_increasing. assumption.
    - rewrite Heq. lra. }
  assert (H0 : 0 <= ln (1 + exp d)).
  { rewrite <- ln_1. left. apply ln_increasing; lra. }
  assert (H2 : ln (1 + exp d) <= ln 2).
  { destruct Hle as [Hlt | Heq].
    - left. apply ln_increasing; lra.
    - rewrite Heq. replace (1 + 1) with 2 by ring. lra. }
  lra.
Qed.

(** ** The entry points, order by order *)

Lemma comprehension_inv {A B : Type} (f : A -> outcome B) (l : list A) :
  forall rs, comprehension f l = Ret rs ->
             Forall2 (fun x y => f x = Ret y) l rs.
Proof.
  induction l as [| x l IH]; cbn; intros rs H.
  - injection H as <-. constructor.
  - destruct (f x) as [y | e |] eqn:Hx; cbn in H; try discriminate.
    destruct (comprehension f l) as [ys | e |]; cbn in H; try discriminate.
    injection H as <-. constructor; [exact Hx | apply IH; reflexivity].
Qed.

Lemma comprehension_first_failure {A B : Type} (f : A -> outcome B)
    (l1 l2 : list A) (x : A) (e : exn) :
  (forall y, In y l1 -> exists v, f y = Ret v) ->
  f x = Raise e ->
  comprehension f (l1 ++ x :: l2) = Raise e.
Proof.
  intros Hl1 Hx. induction l1 as [| y l1 IH]; cbn.
  - rewrite Hx. reflexivity.
  - destruct (Hl1 y) as [v ->]; [left; reflexivity |]. cbn.
    rewrite IH; [reflexivity |].
    intros z Hz. apply Hl1. right. exact Hz.
Qed.

Lemma per_order_inv {A : Type} (f : A -> outcome pyfloat)
    (g : pyfloat -> pyfloat) (orders : shape A) (r : shape pyfloat) :
  (rdp <- per_order f orders ;; Ret (shape_map g rdp)) = Ret r ->
  order_by_order f g orders r.
Proof.
  destruct orders as [o | l]; cbn; intros H.
  - destruct (f o) as [x | e |] eqn:Hx; cbn in H; try discriminate.
    injection H as <-. cbn. exists x. split; reflexivity.
  - destruct (comprehension f l) as [xs | e |] eqn:Hl; cbn in H;
      try discriminate.
    injection H as <-. cbn. apply comprehension_inv in Hl.
    induction Hl as [| o x l xs Hx _ IH]; cbn; constructor.
    + exists x. split; [exact Hx | reflexivity].
    + exact IH.
Qed.

Section EntryPoints.

Variable log_ndtr : R -> R.
Variable expm1_overflows : R -> bool.

(** X5: when an entry point returns, the result has the shape of [orders]
    (a scalar for a scalar, a sequence of the same length and in the same
    order for a sequence), and each value is the per-order value of its own
    order times the steps (and times [q] for randomized response). *)
Theorem entry_points_order_by_order (fuel : nat) (q sigma p : R) (steps : Z)
    (orders : shape order) (r : shape pyfloat) :
  (compute_rdp log_ndtr expm1_overflows fuel q sigma steps orders = Ret r ->
   order_by_order (_compute_rdp log_ndtr expm1_overflows fuel q sigma)
     (fun x => fmul x (Fin (IZR steps))) orders r)
  /\ (compute_rdp_randomized_response p steps orders q = Ret r ->
      order_by_order (_compute_rdp_randomized_response p)
        (fun x => fmul (fmul (Fin q) x) (Fin (IZR steps))) orders r).
Proof.
  split; intros H; apply per_order_inv; exact H.
Qed.

(** X6: in a sequence of orders the first exception wins: if the orders
    before one return and that one raises, the whole call raises the same
    exception and no value is returned for any order. *)
Theorem entry_points_first_failure (fuel : nat) (q sigma p : R) (steps : Z)
    (before after : list order) (o : order) (e : exn) :
  ((forall o', In o' before ->
      exists v, _compute_rdp log_ndtr expm1_overflows fuel q sigma o'
                = Ret v) ->
   _compute_rdp log_ndtr expm1_overflows fuel q sigma o = Raise e ->
   compute_rdp log_ndtr expm1_overflows fuel q sigma steps
     (Sequence (before ++ o :: after)) = Raise e)
  /\ ((forall o', In o' before ->
         exists v, _compute_rdp_randomized_response p o' = Ret v) ->
      _compute_rdp_randomized_response p o = Raise e ->
      compute_rdp_randomized_response p steps
        (Sequence (before ++ o :: after)) q = Raise e).
Proof.
  split; intros Hbefore Ho;
    unfold compute_rdp, compute_rdp_randomized_response, per_order;
    rewrite (comprehension_first_failure _ before after o e Hbefore Ho);
    reflexivity.
Qed.

(** X7: at sampling rate 0 [compute_rdp] returns 0 at every order, for any
    noise multiplier (0 included) and any step count. *)
Theorem compute_rdp_q_zero (fuel : nat) (sigma : R) (steps : Z)
    (orders : shape order) :
  compute_rdp log_ndtr expm1_overflows fuel 0 sigma steps orders
  = Ret (shape_map (fun _ => Fin 0) orders).
Proof.
  unfold compute_rdp.
  rewrite (per_order_ret _ (fun _ => Fin 0)).
  - cbn [bind]. rewrite shape_map_map. f_equal. apply shape_map_ext.
    intros _. cbn. f_equal. ring.
  - destruct orders as [o | l]; cbn; intros; unfold _compute_rdp;
      rewrite (Reqb_true 0 0) by reflexivity; reflexivity.
Qed.

Lemma int_alpha_first_log_b (q sigma : R) (alpha : Z) :
  q < 0 \/ 1 < q ->
  int_alpha_log_b q sigma alpha 0 = Raise ValueError.
Proof.
  intros Hq. unfold int_alpha_log_b. cbn [binom].
  rewrite (rlog_pos 1) by lra. cbn [bind]. unfold rlog.
  destruct Hq as [Hneg | Hbig].
  - rewrite (Rltb_false 0 q) by lra. reflexivity.
  - rewrite (Rltb_true 0 q) by lra. cbn [bind].
    rewrite (Rltb_false 0 (1 - q)) by lra. reflexivity.
Qed.

Lemma frac_alpha_q_out_of_range (fuel : nat) (q sigma alpha : R) :
  q < 0 \/ 1 < q ->
  _compute_log_a_for_frac_alpha log_ndtr expm1_overflows fuel q sigma alpha
  = Raise ValueError.
Proof.
  intros Hq. unfold _compute_log_a_for_frac_alpha.
  rewrite rdiv_nonzero by lra. cbn [bind]. unfold rlog.
  rewrite Rltb_false; [reflexivity |].
  destruct Hq as [Hneg | Hbig].
  - assert (1 / q < 0).
    { unfold Rdiv. rewrite Rmult_1_l. apply Rinv_lt_0_compat. assumption. }
    lra.
  - assert (1 / q < 1).
    { apply Rmult_lt_reg_r with q; [lra |]. field_simplify; lra. }
    lra.
Qed.

(** X8: a sampling rate outside [0, 1] is not accepted silently: with a
    non-zero noise multiplier and a finite order that is fractional or a
    non-negative integer, the first logarithm of [q], [1 - q] or
    [1/q - 1] raises ValueError. *)
Theorem gaussian_q_out_of_range (fuel : nat) (q sigma a : R) :
  q < 0 \/ 1 < q -> sigma <> 0 ->
  (forall z : Z, a = IZR z -> (0 <= z)%Z) ->
  _compute_rdp log_ndtr expm1_overflows fuel q sigma (Finite a)
  = Raise ValueError.
Proof.
  intros Hq Hs Ha. unfold _compute_rdp.
  rewrite (Reqb_false q 0) by lra. rewrite (Reqb_false sigma 0) by assumption.
  rewrite (Reqb_false q 1) by lra.
  destruct (is_integer a) eqn:Hint.
  - apply is_integer_spec in Hint. destruct Hint as [z ->].
    rewrite py_int_IZR. specialize (Ha z eq_refl).
    unfold _compute_log_a_for_int_alpha.
    replace (Z.to_nat (z + 1)) with (S (Z.to_nat z)) by lia.
    cbn [seq int_alpha_loop].
    rewrite int_alpha_first_log_b by assumption. reflexivity.
  - apply frac_alpha_q_out_of_range. assumption.
Qed.

(** X9: a negative integer order is not rejected either: the loop of the
    integer-order path does not run, and minus infinity divided by the
    negative [alpha - 1] gives plus infinity, whatever [q] and [sigma]. *)
Theorem int_alpha_negative_order (fuel : nat) (q sigma : R) (z : Z) :
  (z < 0)%Z ->
  _compute_log_a_for_int_alpha q sigma z = Ret PInf
  /\ (q <> 0 -> sigma <> 0 -> q <> 1 ->
      _compute_rdp log_ndtr expm1_overflows fuel q sigma (Finite (IZR z))
      = Ret PInf).
Proof.
  intros Hz.
  assert (H : _compute_log_a_for_int_alpha q sigma z = Ret PInf).
  { unfold _compute_log_a_for_int_alpha.
    replace (Z.to_nat (z + 1)) with 0%nat by lia. cbn [seq int_alpha_loop bind].
    assert (IZR (z - 1) < 0) by (apply IZR_lt; lia).
    cbn [fdiv]. rewrite Reqb_false by lra. unfold scale_inf.
    rewrite Reqb_false by lra. rewrite Rltb_false by lra. reflexivity. }
  split; [exact H |].
  intros Hq0 Hs Hq1. unfold _compute_rdp.
  rewrite (Reqb_false q 0) by assumption.
  rewrite (Reqb_false sigma 0) by assumption.
  rewrite (Reqb_false q 1) by assumption.
  rewrite is_integer_IZR, py_int_IZR. exact H.
Qed.

End EntryPoints.

(** ** Randomized response outside its domain *)

Lemma is_integer_one_minus (a : R) :
  is_integer a = false -> is_integer (1 + - a) = false.
Proof.
  intros Ha. destruct (is_integer (1 + - a)) eqn:H; [| reflexivity].
  apply is_integer_spec in H. destruct H as [z Hz].
  assert (Hint : is_integer a = true).
  { apply is_integer_spec. exists (1 - z)%Z. rewrite minus_IZR. lra. }
  congruence.
Qed.

(** X12: a flip probability outside [0, 1] with a fractional order yields
    no value: a negative base is raised to a fractional power, and either a
    power leaves the range of the doubles (OverflowError) or the result is
    complex and the conversion to float refuses it (TypeError). *)
Theorem randomized_response_p_out_of_range (p a q : R) (steps : Z) :
  p < 0 \/ 1 < p -> (forall z : Z, a <> IZR z) ->
  exists e : exn,
    (e = TypeError \/ e = OverflowError)
    /\ _compute_rdp_randomized_response p (Finite a) = Raise e
    /\ compute_rdp_randomized_response p steps (Scalar (Finite a)) q
       = Raise e.
Proof.
  intros Hp Ha.
  assert (Hint : is_integer a = false).
  { destruct (is_integer a) eqn:H; [| reflexivity].
    apply is_integer_spec in H. destruct H as [z Hz].
    exfalso. exact (Ha z Hz). }
  assert (Ha0 : a <> 0) by (intros ->; exact (Ha 0%Z eq_refl)).
  assert (Ha1 : 1 + - a <> 0) by (intros H; apply (Ha 1%Z); lra).
  assert (Hraise : exists e : exn,
             (e = TypeError \/ e = OverflowError)
             /\ _compute_rdp_randomized_response p (Finite a) = Raise e).
  { unfold _compute_rdp_randomized_response.
    cbn [order_val fsub fneg fadd].
    destruct Hp as [Hneg | Hbig].
    - unfold float_pow at 1. rewrite (Reqb_false a 0) by assumption.
      rewrite (Reqb_false p 0) by lra. rewrite (Rltb_true p 0) by lra.
      destruct (Rltb DBL_MAX (Rpower (- p) a)).
      + exists OverflowError. split; [right; reflexivity | reflexivity].
      + rewrite Hint. exists TypeError. split; [left; reflexivity | reflexivity].
    - unfold float_pow at 1. rewrite (Reqb_false a 0) by assumption.
      rewrite (Reqb_false p 0) by lra. rewrite (Rltb_false p 0) by lra.
      destruct (Rltb DBL_MAX (Rpower p a)).
      + exists OverflowError. split; [right; reflexivity | reflexivity].
      + cbn [bind]. unfold float_pow at 1.
        rewrite (Reqb_false (1 + - a) 0) by assumption.
        rewrite (Reqb_false (1 - p) 0) by lra.
        rewrite (Rltb_true (1 - p) 0) by lra.
        destruct (Rltb DBL_MAX (Rpower (- (1 - p)) (1 + - a))).
        * exists OverflowError. split; [right; reflexivity | reflexivity].
        * rewrite (is_integer_one_minus a Hint).
          exists TypeError. split; [left; reflexivity | reflexivity]. }
  destruct Hraise as [e [He Hraise]]. exists e.
  split; [exact He | split; [exact Hraise |]].
  unfold compute_rdp_randomized_response, per_order. rewrite Hraise.
  reflexivity.
Qed.

(** ** The integer-order path raises nothing *)

Lemma fdiv_nonzero_ret (x : pyfloat) (b : R) :
  b <> 0 -> exists v : pyfloat, fdiv x (Fin b) = Ret v.
Proof.
  intros Hb. destruct x; cbn; rewrite (Reqb_false b 0) by assumption;
    eexists; reflexivity.
Qed.

(** X14: with [0 < q < 1], a non-zero [sigma] and an integer order
    [alpha >= 0] other than 1, the integer-order path raises no exception:
    every logarithm is taken of a positive number, no divisor is zero, and a
    float is returned. *)
Theorem int_alpha_raises_nothing (q sigma : R) (z : Z) :
  0 < q < 1 -> sigma <> 0 -> (0 <= z)%Z -> z <> 1%Z ->
  exists v : pyfloat, _compute_log_a_for_int_alpha q sigma z = Ret v.
Proof.
  intros Hq Hs Hz Hz1. unfold _compute_log_a_for_int_alpha.
  destruct (int_alpha_loop_ret q sigma z (seq 0 (Z.to_nat (z + 1))) Hq Hs)
    with (rdp := NInf) as [rdp ->].
  - intros i Hi. apply in_seq in Hi. lia.
  - left. reflexivity.
  - cbn [bind]. apply fdiv_nonzero_ret.
    intros H. apply Hz1. apply eq_IZR in H. lia.
Qed.

(** ** The sign of the noise multiplier *)

Lemma int_alpha_log_b_sigma_sign (q sigma : R) (alpha : Z) (i : nat) :
  int_alpha_log_b q (- sigma) alpha i = int_alpha_log_b q sigma alpha i.
Proof.
  unfold int_alpha_log_b.
  replace (2 * (- sigma) ^ 2) with (2 * sigma ^ 2) by ring. reflexivity.
Qed.

Lemma int_alpha_loop_sigma_sign (q sigma : R) (alpha : Z) (range : list nat) :
  forall rdp,
    int_alpha_loop q (- sigma) alpha range rdp
    = int_alpha_loop q sigma alpha range rdp.
Proof.
  induction range as [| i range IH]; intros rdp; cbn [int_alpha_loop].
  - reflexivity.
  - rewrite int_alpha_log_b_sigma_sign.
    destruct (int_alpha_log_b q sigma alpha i) as [log_b | e |]; cbn [bind];
      try reflexivity.
    destruct (if feq _ NInf then _ else _) as [r | e |]; cbn [bind];
      try reflexivity.
    apply IH.
Qed.

Section SigmaSign.

Variable log_ndtr : R -> R.
Variable expm1_overflows : R -> bool.

(** X17: a negative noise multiplier is not rejected: at an integer or
    infinite order only [sigma ** 2] is used, and the result for [- sigma]
    is the result for [sigma], value or exception alike. *)
Theorem gaussian_sigma_sign (fuel : nat) (q sigma : R) (alpha : order) :
  alpha = Infinite \/ (exists z : Z, alpha = Finite (IZR z)) ->
  _compute_rdp log_ndtr expm1_overflows fuel q (- sigma) alpha
  = _compute_rdp log_ndtr expm1_overflows fuel q sigma alpha.
Proof.
  intros Halpha. unfold _compute_rdp.
  assert (Hz : Reqb (- sigma) 0 = Reqb sigma 0).
  { destruct (Req_dec_T sigma 0) as [-> | Hs].
    - rewrite Ropp_0. reflexivity.
    - rewrite (Reqb_false sigma 0) by assumption. apply Reqb_false. lra. }
  rewrite Hz. replace (2 * (- sigma) ^ 2) with (2 * sigma ^ 2) by ring.
  destruct (Reqb q 0); [reflexivity |].
  destruct (Reqb sigma 0); [reflexivity |].
  destruct (Reqb q 1); [reflexivity |].
  destruct Halpha as [-> | [z ->]]; [reflexivity |].
  rewrite is_integer_IZR. unfold _compute_log_a_for_int_alpha.
  rewrite int_alpha_loop_sigma_sign. reflexivity.
Qed.

End SigmaSign.

Lemma gaussian_sigma_sign_witness :
  (exists z : Z, Finite 2 = Finite (IZR z))
  /\ _compute_rdp (fun x => x) (fun _ => false) 0 (1 / 2) (- (1)) (Finite 2)
     = _compute_rdp (fun x => x) (fun _ => false) 0 (1 / 2) 1 (Finite 2).
Proof.
  assert (H : exists z : Z, Finite 2 = Finite (IZR z))
    by (exists 2%Z; reflexivity).
  exact (conj H (gaussian_sigma_sign (fun x => x) (fun _ => false) 0 (1 / 2)
                   1 (Finite 2) (or_intror H))).
Defined.

(** ** The fractional-order loop does not stop early *)

Section NoEarlyExit.

Variable log_ndtr : R -> R.
Variable expm1_overflows : R -> bool.

Lemma frac_alpha_loop_goes_on (q sigma alpha z0 : R) (fuel : nat) :
  0 < q < 1 -> sigma <> 0 -> (forall z : Z, alpha <> IZR z) ->
  forall (i : nat) (acc r : pyfloat * pyfloat),
    (forall m, (i <= m < i + fuel)%nat ->
               ~ negligible log_ndtr q sigma alpha z0 m) ->
    frac_alpha_loop log_ndtr expm1_overflows fuel q sigma alpha z0 i
      (fst acc) (snd acc) <> Ret r.
Proof.
  intros Hq Hs Hfrac. induction fuel as [| fuel IH]; intros i acc r Hnot.
  - discriminate.
  - rewrite (frac_alpha_loop_unfold log_ndtr expm1_overflows q sigma alpha z0
               Hq Hs Hfrac).
    destruct (accumulate _ _ _ _ acc) as [acc' | e |]; cbn [bind];
      try discriminate.
    destruct (flt _ (Fin (-30))) eqn:Htest.
    + exfalso. apply (Hnot i); [lia |]. apply exit_test. exact Htest.
    + apply IH. intros m Hm. apply Hnot. lia.
Qed.

(** X18: the fractional-order loop goes on as long as one of the two terms
    is not below -30: if that is so at every index below [fuel], the
    computation returns no value within [fuel] turns (it is still running,
    or it has raised).  With C2, the loop makes exactly [N + 1] turns for
    the first negligible index [N]; if there is none, it never returns. *)
Theorem frac_alpha_no_early_exit (q sigma alpha : R) (fuel : nat) :
  0 < q < 1 -> 0 < sigma -> (forall z : Z, alpha <> IZR z) ->
  (forall i, (i < fuel)%nat ->
             ~ negligible log_ndtr q sigma alpha (crossover q sigma) i) ->
  forall v : pyfloat,
    _compute_log_a_for_frac_alpha log_ndtr expm1_overflows fuel q sigma alpha
    <> Ret v.
Proof.
  intros Hq Hsigma Hfrac Hnot v.
  rewrite frac_alpha_crossover by assumption.
  destruct (frac_alpha_loop log_ndtr expm1_overflows fuel q sigma alpha
              (crossover q sigma) 0 NInf NInf) as [[a0 a1] | e |] eqn:Hloop;
    cbn [bind]; try discriminate.
  exfalso.
  apply (frac_alpha_loop_goes_on q sigma alpha (crossover q sigma) fuel Hq
           (Rgt_not_eq _ _ Hsigma) Hfrac 0 (NInf, NInf) (a0, a1)).
  - intros m Hm. apply Hnot. lia.
  - exact Hloop.
Qed.

End NoEarlyExit.

Lemma ln_2_lt_1 : ln 2 < 1.
Proof.
  apply Rlt_le_trans with (ln (exp 1)); [| rewrite ln_exp; lra].
  apply ln_increasing; [lra |].
  pose proof (exp_ineq1 1). lra.
Qed.

Lemma frac_alpha_not_negligible_at_zero :
  forall i, (i < 1)%nat ->
    ~ negligible (fun _ => 0) (1 / 2) 1 (3 / 2) (crossover (1 / 2) 1) i.
Proof.
  intros i Hi [H0 _]. replace i with 0%nat in H0 by lia.
  unfold series_log_s0, _log_erfc in H0. cbn [binom INR] in H0.
  rewrite Rabs_R1, ln_1 in H0.
  replace (1 - 1 / 2) with (1 / 2) in H0 by lra. rewrite ln_half in H0.
  pose proof ln_2_lt_1. pose proof ln_lt_2. lra.
Qed.

Lemma frac_alpha_no_early_exit_witness :
  0 < 1 / 2 < 1 /\ 0 < 1 /\ (forall z : Z, 3 / 2 <> IZR z)
  /\ forall v : pyfloat,
       _compute_log_a_for_frac_alpha (fun _ => 0) (fun _ => false) 1
         (1 / 2) 1 (3 / 2) <> Ret v.
Proof.
  assert (Hq : 0 < 1 / 2 < 1) by lra.
  assert (Hs : 0 < 1) by lra.
  exact (conj Hq (conj Hs (conj three_halves_fractional
           (frac_alpha_no_early_exit (fun _ => 0) (fun _ => false)
              (1 / 2) 1 (3 / 2) 1 Hq Hs three_halves_fractional
              frac_alpha_not_negligible_at_zero)))).
Defined.

(** ** Concrete runs of the further properties *)

Lemma two_is_nonnegative_integer : forall z : Z, 2 = IZR z -> (0 <= z)%Z.
Proof. intros z H. apply (eq_IZR 2 z) in H. lia. Qed.

Lemma gaussian_q_out_of_range_witness :
  (2 < 0 \/ 1 < 2) /\ 1 <> 0
  /\ (forall z : Z, 2 = IZR z -> (0 <= z)%Z)
  /\ _compute_rdp (fun x => x) (fun _ => false) 0 2 1 (Finite 2)
     = Raise ValueError.
Proof.
  assert (Hq : 2 < 0 \/ 1 < 2) by (right; lra).
  assert (Hs : 1 <> 0) by lra.
  exact (conj Hq (conj Hs (conj two_is_nonnegative_integer
           (gaussian_q_out_of_range (fun x => x) (fun _ => false) 0 2 1 2
              Hq Hs two_is_nonnegative_integer)))).
Defined.

Lemma int_alpha_negative_order_witness :
  (-1 < 0)%Z /\ _compute_log_a_for_int_alpha (1 / 2) 1 (-1) = Ret PInf.
Proof.
  assert (Hz : (-1 < 0)%Z) by lia.
  exact (conj Hz
           (proj1 (int_alpha_negative_order (fun x => x) (fun _ => false) 0
                     (1 / 2) 1 (-1) Hz))).
Defined.

Lemma randomized_response_p_out_of_range_witness :
  (2 < 0 \/ 1 < 2) /\ (forall z : Z, 3 / 2 <> IZR z)
  /\ exists e : exn,
       (e = TypeError \/ e = OverflowError)
       /\ _compute_rdp_randomized_response 2 (Finite (3 / 2)) = Raise e.
Proof.
  assert (Hp : 2 < 0 \/ 1 < 2) by (right; lra).
  destruct (randomized_response_p_out_of_range 2 (3 / 2) 1 1 Hp
              three_halves_fractional) as [e [He [Hr _]]].
  refine (conj Hp (conj three_halves_fractional _)).
  exists e. exact (conj He Hr).
Defined.

Lemma int_alpha_raises_nothing_witness :
  0 < 1 / 2 < 1 /\ 1 <> 0 /\ (0 <= 2)%Z /\ 2%Z <> 1%Z
  /\ exists v : pyfloat, _compute_log_a_for_int_alpha (1 / 2) 1 2 = Ret v.
Proof.
  assert (Hq : 0 < 1 / 2 < 1) by lra.
  assert (Hs : 1 <> 0) by lra.
  assert (Hz : (0 <= 2)%Z) by lia.
  assert (Hz1 : 2%Z <> 1%Z) by lia.
  exact (conj Hq (conj Hs (conj Hz (conj Hz1
           (int_alpha_raises_nothing (1 / 2) 1 2 Hq Hs Hz Hz1))))).
Defined.

Lemma gaussian_order_one_raises :
  _compute_rdp (fun x => x) (fun _ => false) 0 (1 / 2) 1 (Finite 1)
  = Raise ZeroDivisionError.
Proof.
  unfold _compute_rdp.
  rewrite (Reqb_false (1 / 2) 0), (Reqb_false 1 0), (Reqb_false (1 / 2) 1)
    by lra.
  rewrite (is_integer_IZR 1), (py_int_IZR 1).
  apply int_alpha_order_one; lra.
Qed.

Lemma entry_points_first_failure_witness :
  compute_rdp (fun x => x) (fun _ => false) 0 (1 / 2) 1 1
    (Sequence ([Infinite] ++ Finite 1 :: [Infinite]))
  = Raise ZeroDivisionError.
Proof.
  apply (proj1 (entry_points_first_failure (fun x => x) (fun _ => false) 0
                  (1 / 2) 1 (1 / 2) 1 [Infinite] [Infinite] (Finite 1)
                  ZeroDivisionError)).
  - intros o [<- | []]. exists PInf. unfold _compute_rdp.
    rewrite (Reqb_false (1 / 2) 0), (Reqb_false 1 0), (Reqb_false (1 / 2) 1)
      by lra.
    reflexivity.
  - exact gaussian_order_one_raises.
Defined.

Lemma entry_points_order_by_order_witness :
  order_by_order (_compute_rdp (fun x => x) (fun _ => false) 0 0 1)
    (fun x => fmul x (Fin (IZR 1))) (Sequence [Finite 2; Infinite])
    (Sequence [Fin (0 * 1); Fin (0 * 1)]).
Proof.
  apply (proj1 (entry_points_order_by_order (fun x => x) (fun _ => false) 0
                  0 1 (1 / 2) 1 (Sequence [Finite 2; Infinite])
                  (Sequence [Fin (0 * 1); Fin (0 * 1)]))).
  unfold compute_rdp, per_order, _compute_rdp. cbn [comprehension].
  rewrite (Reqb_true 0 0) by reflexivity. reflexivity.
Defined.
